(** * Mempool reconnaissance engine: tx_search.py and txpool_probe.py

    A shallow embedding of the two mempool tools under [exp/tx-search]:

    - [tx_search.py]: repeated [txpool_inspect] probes looking for target
      transaction hashes and sender addresses, with an early exit once all
      target hashes were seen;
    - [txpool_probe.py]: [txpool_status] sampling, [txpool_inspect]
      collation into per-sender pending-nonce sets and a queued-entry
      corpus, classification of every queued entry, and a consolidated
      per-sender table.

    Conventions.  JSON documents returned by the node are Python values
    ([pyval]); a Python [dict] coming from JSON is an association list in
    iteration order.  Strings are ASCII.  An uncaught Python exception is
    the outcome [Raise] of the error monad [exc]; exceptions caught by a
    [try] are handled where the source handles them.  The node, the random
    generator and the operating system's sleep are an environment ([Env])
    queried by call index; the calls issued and the sleeps taken are logged
    in the [World]. *)

From Stdlib Require Import ZArith Lia Ascii String.
From stdpp Require Import base option list gmap strings pretty sorting fin_maps fin_sets.

#[local] Open Scope Z_scope.

(** ** The error monad *)

Inductive exc (A : Type) : Type :=
| Ok (a : A)
| Raise.
Arguments Ok {A} a.
Arguments Raise {A}.

#[global] Instance exc_ret : MRet exc := fun A a => Ok a.
#[global] Instance exc_bind : MBind exc := fun A B f m =>
  match m with
  | Ok a => f a
  | Raise => Raise
  end.

Definition raised {A} (m : exc A) : bool :=
  match m with
  | Ok _ => false
  | Raise => true
  end.

(** ** The fragment of Python the two scripts rely on *)

Module Py.

(** Values produced by [json.loads] (numbers are integers). *)
#[warnings="-register-all"]
Inductive pyval : Type :=
| PNone
| PBool (b : bool)
| PInt (z : Z)
| PStr (s : string)
| PList (l : list pyval)
| PDict (kvs : list (string * pyval)).

(** [bool(v)], as used by [x or default]. *)
Definition truthy (v : pyval) : bool :=
  match v with
  | PNone => false
  | PBool b => b
  | PInt z => negb (z =? 0)
  | PStr s => negb (String.eqb s "")
  | PList l => match l with [] => false | _ => true end
  | PDict kvs => match kvs with [] => false | _ => true end
  end.

(** [v or d] *)
Definition or_else (v d : pyval) : pyval := if truthy v then v else d.

(** [isinstance(v, dict)] *)
Definition is_dict (v : pyval) : bool :=
  match v with
  | PDict _ => true
  | _ => false
  end.

(** [d.get(k)] on the items of a dict: [None] when the key is absent. *)
Fixpoint items_get (k : string) (kvs : list (string * pyval)) : option pyval :=
  match kvs with
  | [] => None
  | (k', v) :: rest => if String.eqb k k' then Some v else items_get k rest
  end.

(** [v.get(k)]: only a dict has the method; anything else raises
    [AttributeError]. *)
Definition get (v : pyval) (k : string) : exc pyval :=
  match v with
  | PDict kvs => Ok (default PNone (items_get k kvs))
  | _ => Raise
  end.

(** [v.get(k, d)] *)
Definition get_default (v : pyval) (k : string) (d : pyval) : exc pyval :=
  match v with
  | PDict kvs => Ok (default d (items_get k kvs))
  | _ => Raise
  end.

(** *** Characters and strings *)

Definition code (c : ascii) : Z := Z.of_nat (nat_of_ascii c).

(** [str.isspace] on the ASCII range: TAB..CR, FS..US and the blank.  It is
    what [str.strip] removes and what [\s] matches. *)
Definition is_space (c : ascii) : bool :=
  ((9 <=? code c) && (code c <=? 13)) || ((28 <=? code c) && (code c <=? 32)).

(** The blanks that [int] skips around an ASCII literal: TAB..CR and the
    blank. *)
Definition is_blank (c : ascii) : bool :=
  ((9 <=? code c) && (code c <=? 13)) || (code c =? 32).

Definition is_digit (c : ascii) : bool := (48 <=? code c) && (code c <=? 57).

Definition is_hex (c : ascii) : bool :=
  is_digit c || ((97 <=? code c) && (code c <=? 102))
             || ((65 <=? code c) && (code c <=? 70)).

Definition lower_char (c : ascii) : ascii :=
  if (65 <=? code c) && (code c <=? 90)
  then ascii_of_nat (nat_of_ascii c + 32)
  else c.

Definition eqb_ci (a b : ascii) : bool := Ascii.eqb (lower_char a) (lower_char b).

Fixpoint lstrip_chars (cs : list ascii) : list ascii :=
  match cs with
  | c :: rest => if is_space c then lstrip_chars rest else cs
  | [] => []
  end.

Fixpoint skip_blanks (cs : list ascii) : list ascii :=
  match cs with
  | c :: rest => if is_blank c then skip_blanks rest else cs
  | [] => []
  end.

Definition strip_chars (cs : list ascii) : list ascii :=
  rev (lstrip_chars (rev (lstrip_chars cs))).

(** [s.strip()] *)
Definition strip (s : string) : string :=
  string_of_list_ascii (strip_chars (list_ascii_of_string s)).

(** [s.lower()] *)
Definition lower (s : string) : string :=
  string_of_list_ascii (map lower_char (list_ascii_of_string s)).

(** [s.startswith(p)] *)
Definition startswith (p s : string) : bool := String.prefix p s.

(** [s.split(",")]: always at least one piece. *)
Fixpoint split_chars (sep : ascii) (cur : list ascii) (cs : list ascii) : list string :=
  match cs with
  | [] => [string_of_list_ascii (rev cur)]
  | c :: rest =>
      if Ascii.eqb c sep
      then string_of_list_ascii (rev cur) :: split_chars sep [] rest
      else split_chars sep (c :: cur) rest
  end.

Definition split_comma (s : string) : list string :=
  split_chars ","%char [] (list_ascii_of_string s).

(** *** [int(s, base)] for base 0, 10 and 16

    The scan follows the interpreter: blanks are skipped on both sides, one
    sign is accepted, base 0 reads the base from the [0x]/[0o]/[0b] prefix
    and refuses a non-zero decimal with a leading zero, base 16 skips an
    optional [0x], a single underscore may separate digits (and follow the
    prefix).  [None] is [ValueError].  The interpreter's cap on the number of
    decimal digits is not modelled. *)

Definition digit_val (c : ascii) : option Z :=
  if is_digit c then Some (code c - 48)
  else if (97 <=? code c) && (code c <=? 122) then Some (code c - 87)
  else if (65 <=? code c) && (code c <=? 90) then Some (code c - 55)
  else None.

Definition is_underscore (c : ascii) : bool := Ascii.eqb c "_"%char.

(** Digits and underscores up to the first other character: the value, the
    number of digits and the rest; [None] on a doubled or trailing
    underscore. *)
Fixpoint scan_digits (base : Z) (prev_us : bool) (acc : Z) (digits : nat)
    (cs : list ascii) : option (Z * nat * list ascii) :=
  let stop := if prev_us then None else Some (acc, digits, cs) in
  match cs with
  | [] => stop
  | c :: rest =>
      if is_underscore c then
        if prev_us then None else scan_digits base true acc digits rest
      else
        match digit_val c with
        | Some d =>
            if d <? base
            then scan_digits base false (acc * base + d) (S digits) rest
            else stop
        | None => stop
        end
  end.

Definition take_sign (cs : list ascii) : Z * list ascii :=
  match cs with
  | c :: rest =>
      if Ascii.eqb c "+"%char then (1, rest)
      else if Ascii.eqb c "-"%char then (-1, rest)
      else (1, cs)
  | [] => (1, cs)
  end.

(** The base a literal is read in and whether it has to denote zero (base 0
    on a literal that starts with [0] and has no base letter). *)
Definition pick_base (base : Z) (cs : list ascii) : Z * bool :=
  if base =? 0 then
    match cs with
    | z :: rest =>
        if Ascii.eqb z "0"%char then
          match rest with
          | c :: _ =>
              if eqb_ci c "x"%char then (16, false)
              else if eqb_ci c "o"%char then (8, false)
              else if eqb_ci c "b"%char then (2, false)
              else (10, true)
          | [] => (10, true)
          end
        else (10, false)
    | [] => (10, false)
    end
  else (base, false).

Definition base_letter (base : Z) : option ascii :=
  if base =? 16 then Some "x"%char
  else if base =? 8 then Some "o"%char
  else if base =? 2 then Some "b"%char
  else None.

(** Skips [0x] (or [0o], [0b]) when it is the prefix of the base in use, and
    one underscore after it. *)
Definition skip_prefix (base : Z) (cs : list ascii) : list ascii :=
  match base_letter base, cs with
  | Some l, z :: c :: rest =>
      if Ascii.eqb z "0"%char && eqb_ci c l then
        match rest with
        | u :: rest' => if is_underscore u then rest' else rest
        | [] => rest
        end
      else cs
  | _, _ => cs
  end.

Definition int_of_chars (base : Z) (cs0 : list ascii) : option Z :=
  let '(sign, cs1) := take_sign (skip_blanks cs0) in
  let '(b, must_be_zero) := pick_base base cs1 in
  let cs2 := skip_prefix b cs1 in
  match cs2 with
  | u :: _ => if is_underscore u then None else
      match scan_digits b false 0 0%nat cs2 with
      | Some (v, digits, rest) =>
          if must_be_zero && negb (v =? 0) then None
          else if (digits =? 0)%nat then None
          else match skip_blanks rest with
               | [] => Some (sign * v)
               | _ => None
               end
      | None => None
      end
  | [] => None
  end.

Definition int_of_str (base : Z) (s : string) : option Z :=
  int_of_chars base (list_ascii_of_string s).

(** *** [str(v)]

    [str] of a string is the string; of anything else its [repr]. *)

Definition quote1 : ascii := "'"%char.
Definition quote2 : ascii := "034"%char.
Definition backslash : ascii := "\"%char.

Definition hex_digit (n : Z) : ascii :=
  if n <? 10 then ascii_of_nat (Z.to_nat (48 + n))
  else ascii_of_nat (Z.to_nat (87 + n)).

Definition repr_char (q : ascii) (c : ascii) : list ascii :=
  if Ascii.eqb c q || Ascii.eqb c backslash then [backslash; c]
  else if code c =? 9 then [backslash; "t"%char]
  else if code c =? 10 then [backslash; "n"%char]
  else if code c =? 13 then [backslash; "r"%char]
  else if (code c <? 32) || (code c =? 127)
  then [backslash; "x"%char; hex_digit (code c / 16); hex_digit (code c mod 16)]
  else [c].

Definition has_char (c : ascii) (cs : list ascii) : bool :=
  existsb (Ascii.eqb c) cs.

Definition repr_str (s : string) : string :=
  let cs := list_ascii_of_string s in
  let q := if has_char quote1 cs && negb (has_char quote2 cs) then quote2 else quote1 in
  string_of_list_ascii (q :: flat_map (repr_char q) cs ++ [q]).

Fixpoint str_join (sep : string) (parts : list string) : string :=
  match parts with
  | [] => ""
  | [p] => p
  | p :: rest => p +:+ sep +:+ str_join sep rest
  end.

Fixpoint repr (v : pyval) : string :=
  match v with
  | PNone => "None"
  | PBool true => "True"
  | PBool false => "False"
  | PInt z => pretty z
  | PStr s => repr_str s
  | PList l => "[" +:+ str_join ", " (map repr l) +:+ "]"
  | PDict kvs =>
      "{" +:+ str_join ", " (map (fun kv => repr_str kv.1 +:+ ": " +:+ repr kv.2) kvs) +:+ "}"
  end.

Definition str (v : pyval) : string :=
  match v with
  | PStr s => s
  | _ => repr v
  end.

(** [range(lo, hi)] *)
Definition range (lo hi : Z) : list Z :=
  map (fun i => lo + Z.of_nat i) (seq 0 (Z.to_nat (hi - lo))).

(** [l[:k]]: a negative [k] counts from the end. *)
Definition slice_to {A} (k : Z) (l : list A) : list A :=
  if k <? 0 then take (length l - Z.to_nat (- k)) l
  else take (Z.to_nat k) l.

End Py.

Import Py.

(** ** The node, the random generator and the log of effects *)

(** What [RpcClient.call] does with one request: it returns the [result]
    member of the response, or raises (transport failure, HTTP error status,
    undecodable body, an [error] member in the response). *)
Inductive reply : Type :=
| Result (v : pyval)
| Fault.

(** The surroundings of a run: what the node answers to the [k]-th request,
    what the random generator draws for the [k]-th sleep, and whether the
    operating system carries out the [k]-th sleep of [d] milliseconds (it
    refuses a deadline beyond the range of its clock, which depends on how
    long the machine has been up). *)
Record Env : Type := {
  answer : nat -> string -> list pyval -> reply;
  draw : nat -> Z;
  os_sleeps : nat -> Z -> bool
}.

Record World : Type := {
  calls : list (string * list pyval);
  sleeps : list Z
}.

Definition world0 : World := {| calls := []; sleeps := [] |}.

(** [rpc.call(method, params)]: the answer depends on how many calls were
    issued before; the call is logged whether it succeeds or not. *)
Definition rpc_call (env : Env) (method : string) (params : list pyval)
    (w : World) : reply * World :=
  (answer env (length (calls w)) method params,
   {| calls := calls w ++ [(method, params)]; sleeps := sleeps w |}).

(** [random.randint(0, hi)]: [ValueError] on an empty range. *)
Definition randint0 (env : Env) (hi : Z) (w : World) : exc Z :=
  if hi <? 0 then Raise
  else Ok (Z.max 0 (Z.min hi (draw env (length (sleeps w))))).

(** The longest duration, in milliseconds, that [time.sleep] converts to its
    64-bit count of nanoseconds: [(2^63 - 1) / 10^6], rounded down. *)
Definition MAX_SLEEP_MS : Z := 9223372036854.

(** [time.sleep((sleep_min + random.randint(0, sleep_jitter)) / 1000.0)]:
    [random.randint] raises [ValueError] on a negative jitter; [time.sleep]
    raises [ValueError] on a negative duration, [OverflowError] on a
    duration beyond [MAX_SLEEP_MS] (as the division does on an integer
    beyond the floats), and [OSError] when the operating system refuses the
    sleep.  None of them is caught by the callers. *)
Definition sleep_briefly (env : Env) (sleep_min sleep_jitter : Z)
    (w : World) : exc World :=
  r ← randint0 env sleep_jitter w;
  if sleep_min + r <? 0 then Raise
  else if MAX_SLEEP_MS <? sleep_min + r then Raise
  else if os_sleeps env (length (sleeps w)) (sleep_min + r)
  then Ok {| calls := calls w; sleeps := sleeps w ++ [sleep_min + r] |}
  else Raise.

(** Sleep settings with which no [sleep_briefly] of a run raises: neither
    is negative, the longest sleep is within [MAX_SLEEP_MS], and the
    operating system carries out every sleep of the range. *)
Definition sleeps_accepted (env : Env) (sleep_min sleep_jitter : Z) : Prop :=
  0 <= sleep_min /\ 0 <= sleep_jitter
  /\ sleep_min + sleep_jitter <= MAX_SLEEP_MS
  /\ forall k d, sleep_min <= d <= sleep_min + sleep_jitter -> os_sleeps env k d = true.

(** How many requests for [method] were issued. *)
Definition count_calls (method : string) (w : World) : nat :=
  length (filter (fun c => c.1 = method) (calls w)).

(** Every successful [txpool_inspect] answer is an object (or a value that
    [or {}] replaces by one). *)
Definition inspect_replies_are_objects (env : Env) : Prop :=
  forall k params v,
    answer env k "txpool_inspect" params = Result v ->
    truthy v = true -> is_dict v = true.

(** Runs [f] over [l] as a [for] loop inside a [try]: the first exception
    ends the loop, what was done before it stays done.  The flag tells
    whether an exception was raised. *)
Fixpoint fold_until {A S : Type} (f : A -> S -> exc S) (l : list A) (s : S) : S * bool :=
  match l with
  | [] => (s, false)
  | a :: rest =>
      match f a s with
      | Ok s' => fold_until f rest s'
      | Raise => (s, true)
      end
  end.

(** ** tx_search.py *)

Module TxSearch.

(** [normalize_tx_hash] and [normalize_address] (the same body). *)
Definition add_0x_lower (s : string) : string :=
  let s := strip s in
  lower (if startswith "0x" s then s else "0x" +:+ s).

Definition normalize_tx_hash (tx_hash : string) : string := add_0x_lower tx_hash.
Definition normalize_address (addr : string) : string := add_0x_lower addr.

(** [normalize_tx_hash(tx_data["hash"])] on whatever the node sent: only a
    string has [strip]. *)
Definition normalize_tx_hash_val (v : pyval) : exc string :=
  match v with
  | PStr s => Ok (normalize_tx_hash s)
  | _ => Raise
  end.

Definition parse_list (norm : string -> string) (s : string) : list string :=
  if String.eqb s "" then []
  else map norm (filter (fun p => p ≠ "") (map strip (split_comma s))).

Definition parse_tx_hashes (s : string) : list string := parse_list normalize_tx_hash s.
Definition parse_tx_addresses (s : string) : list string := parse_list normalize_address s.

(** [int(nonce_str, 0) if str(nonce_str).startswith("0x") else int(nonce_str)] *)
Definition parse_nonce (nonce_str : string) : exc Z :=
  match (if startswith "0x" nonce_str then int_of_str 0 nonce_str
         else int_of_str 10 nonce_str) with
  | Some n => Ok n
  | None => Raise
  end.

Inductive pool : Type := pending | queued.

Definition pool_name (p : pool) : string :=
  match p with
  | pending => "pending"
  | queued => "queued"
  end.

(** The [tx_info] dict. *)
Record tx_info : Type := {
  status : pool;
  address : string;
  nonce : Z;
  data : pyval;
  found_in_hit : Z
}.

Record stats : Type := {
  total_hits : Z;
  successful_hits : Z;
  failed_hits : Z;
  pending_searches : Z;
  queued_searches : Z
}.

Record state : Type := {
  found_transactions : gmap string tx_info;
  found_by_address : gmap string (list tx_info);
  search_stats : stats
}.

Definition stats0 : stats :=
  {| total_hits := 0; successful_hits := 0; failed_hits := 0;
     pending_searches := 0; queued_searches := 0 |}.

Definition state0 : state :=
  {| found_transactions := ∅; found_by_address := ∅; search_stats := stats0 |}.

Definition with_stats (f : stats -> stats) (st : state) : state :=
  {| found_transactions := found_transactions st;
     found_by_address := found_by_address st;
     search_stats := f (search_stats st) |}.

Definition bump_total (s : stats) : stats :=
  {| total_hits := total_hits s + 1; successful_hits := successful_hits s;
     failed_hits := failed_hits s; pending_searches := pending_searches s;
     queued_searches := queued_searches s |}.
Definition bump_successful (s : stats) : stats :=
  {| total_hits := total_hits s; successful_hits := successful_hits s + 1;
     failed_hits := failed_hits s; pending_searches := pending_searches s;
     queued_searches := queued_searches s |}.
Definition bump_failed (s : stats) : stats :=
  {| total_hits := total_hits s; successful_hits := successful_hits s;
     failed_hits := failed_hits s + 1; pending_searches := pending_searches s;
     queued_searches := queued_searches s |}.
Definition bump_searches (p : pool) (s : stats) : stats :=
  {| total_hits := total_hits s; successful_hits := successful_hits s;
     failed_hits := failed_hits s;
     pending_searches := pending_searches s + (if p is pending then 1 else 0);
     queued_searches := queued_searches s + (if p is queued then 1 else 0) |}.

Section Search.

Context (target_hashes target_addresses : list string).

(** The two [if] statements that record a match: the record of a target
    hash is assigned (whatever was there before is replaced), the record of
    a target address is appended to the list of that address. *)
Definition record_match (tx_hash : string) (info : tx_info) (st : state) : state :=
  let by_hash :=
    if bool_decide (tx_hash ∈ target_hashes)
    then <[tx_hash := info]> (found_transactions st)
    else found_transactions st in
  let by_addr :=
    if bool_decide (address info ∈ target_addresses)
    then <[address info := default [] (found_by_address st !! address info) ++ [info]]>
           (found_by_address st)
    else found_by_address st in
  {| found_transactions := by_hash; found_by_address := by_addr;
     search_stats := search_stats st |}.

(** Only target hashes are recorded. *)
Definition within_targets (st : state) : Prop :=
  dom (found_transactions st) ⊆ (list_to_set target_hashes : gset string).

(** One [(nonce_str, tx_data)] item of a sender's nonce map. *)
Definition scan_entry (p : pool) (hit_num : Z) (addr_normalized : string)
    (item : string * pyval) (st : state) : exc state :=
  let '(nonce_str, tx_data) := item in
  match tx_data with
  | PDict fields =>
      match items_get "hash" fields with
      | Some h =>
          tx_hash ← normalize_tx_hash_val h;
          n ← parse_nonce nonce_str;
          Ok (record_match tx_hash
                {| status := p; address := addr_normalized; nonce := n;
                   data := tx_data; found_in_hit := hit_num |} st)
      | None => Ok st
      end
  | _ => Ok st
  end.

(** One [(addr, nonce_map)] item of a pool map; an exception inside leaves
    the matches recorded so far in place. *)
Definition scan_sender (p : pool) (hit_num : Z) (item : string * pyval)
    (acc : state * bool) : state * bool :=
  let '(st, failed) := acc in
  if failed then acc
  else
    let '(addr, nonce_map) := item in
    match nonce_map with
    | PDict entries => fold_until (scan_entry p hit_num (normalize_address addr)) entries st
    | _ => (st, false)
    end.

(** The block that searches one of the two pools of a snapshot. *)
Definition scan_pool (p : pool) (hit_num : Z) (insp : pyval) (st : state) : state * bool :=
  match get insp (pool_name p) with
  | Raise => (st, true)
  | Ok m =>
      match or_else m (PDict []) with
      | PDict senders =>
          fold_left (fun acc item => scan_sender p hit_num item acc) senders
            (with_stats (bump_searches p) st, false)
      | _ => (st, false)
      end
  end.

(** The body of the [try] after a successful call: pending first, then
    queued; queued is not looked at when pending raised. *)
Definition ingest (hit_num : Z) (insp : pyval) (st : state) : state * bool :=
  let '(st1, failed) := scan_pool pending hit_num insp st in
  if failed then (st1, true) else scan_pool queued hit_num insp st1.

(** One iteration of the sampling loop, up to the early-exit test. *)
Definition hit (env : Env) (hit_num : Z) (st : state) (w : World) : state * World :=
  let st := with_stats bump_total st in
  let '(r, w) := rpc_call env "txpool_inspect" [] w in
  match r with
  | Fault => (with_stats bump_failed st, w)
  | Result v =>
      let '(st, failed) := ingest hit_num (or_else v (PDict [])) (with_stats bump_successful st) in
      (if failed then with_stats bump_failed st else st, w)
  end.

(** [target_hashes and len(found_transactions) == len(target_hashes)] *)
Definition all_found (st : state) : bool :=
  match target_hashes with
  | [] => false
  | _ => bool_decide (size (found_transactions st) = length target_hashes)
  end.

Fixpoint search_loop (env : Env) (sleep_min sleep_jitter : Z) (hit_nums : list Z)
    (st : state) (w : World) : exc (state * World) :=
  match hit_nums with
  | [] => Ok (st, w)
  | hit_num :: rest =>
      let '(st, w) := hit env hit_num st w in
      if all_found st then Ok (st, w)
      else
        w ← sleep_briefly env sleep_min sleep_jitter w;
        search_loop env sleep_min sleep_jitter rest st w
  end.

(** Snapshots ingested one after the other, numbered from [first]. *)
Fixpoint ingest_all (first : Z) (snapshots : list pyval) (st : state) : state :=
  match snapshots with
  | [] => st
  | s :: rest => ingest_all (first + 1) rest (ingest first s st).1
  end.

End Search.

(** The command line: [--hashes], [--addresses] (empty when absent),
    [--hits], [--sleep], [--jitter]. *)
Record args : Type := {
  hashes : string;
  addresses : string;
  hits : Z;
  sleep : Z;
  jitter : Z
}.

Inductive run : Type :=
| UsageError
| Crashed
| Finished (st : state) (w : World).

Definition search_transactions (env : Env) (a : args) : run :=
  let target_hashes := parse_tx_hashes (hashes a) in
  let target_addresses := parse_tx_addresses (addresses a) in
  match target_hashes, target_addresses with
  | [], [] => UsageError
  | _, _ =>
      match search_loop target_hashes target_addresses env (sleep a) (jitter a)
              (range 1 (hits a + 1)) state0 world0 with
      | Ok (st, w) => Finished st w
      | Raise => Crashed
      end
  end.

(** [missing_hashes] of the report. *)
Definition missing_hashes (target_hashes : list string) (st : state) : list string :=
  filter (fun h => found_transactions st !! h = None) target_hashes.

(** The hashes that have a record and the addresses that have a list. *)
Definition found_keys (st : state) : gset string * gset string :=
  (dom (found_transactions st), dom (found_by_address st)).

Definition keys_union (k1 k2 : gset string * gset string) : gset string * gset string :=
  (k1.1 ∪ k2.1, k1.2 ∪ k2.2).

End TxSearch.

(** ** txpool_probe.py *)

Module Probe.

(** The module-level settings read from the environment.  [WEI_FLOOR] is
    [int(GAS_PRICE_FLOOR_GWEI * GWEI)], taken here as computed. *)
Record config : Type := {
  SAMPLES : Z;
  INSPECT_HITS : Z;
  WEI_FLOOR : Z;
  SLEEP_MS_MIN : Z;
  SLEEP_MS_JITTER : Z;
  CONSOLIDATED_LIMIT : Z
}.

Definition exc_of_option {A} (o : option A) : exc A :=
  match o with
  | Some a => Ok a
  | None => Raise
  end.

(** [hex_to_int]: [bool] is an [int] for [isinstance]. *)
Definition hex_to_int (value : pyval) : exc Z :=
  match value with
  | PNone => Ok 0
  | PInt z => Ok z
  | PBool b => Ok (if b then 1 else 0)
  | _ =>
      let s := str value in
      exc_of_option (if startswith "0x" s then int_of_str 16 s else int_of_str 10 s)
  end.

(** [get_pending_basefee_wei]: every failure is turned into 0. *)
Definition get_pending_basefee_wei (env : Env) (w : World) : Z * World :=
  let '(r, w) := rpc_call env "eth_getBlockByNumber" [PStr "pending"; PBool false] w in
  match r with
  | Result (PDict fields) =>
      match hex_to_int (default (PStr "0x0") (items_get "baseFeePerGas" fields)) with
      | Ok z => (z, w)
      | Raise => (0, w)
      end
  | Result _ => (0, w)
  | Fault => (0, w)
  end.

(** *** The summary patterns

    Every pattern is [name\s*[:=]\s*(0x[0-9a-fA-F]+|\d+)] compiled with
    [re.IGNORECASE]; [search_assign name text] is group 1 of the leftmost
    match. *)

Fixpoint match_name (name text : list ascii) : option (list ascii) :=
  match name, text with
  | [], _ => Some text
  | n :: name', c :: text' => if eqb_ci n c then match_name name' text' else None
  | _ :: _, [] => None
  end.

Fixpoint take_while (p : ascii -> bool) (cs : list ascii) : list ascii :=
  match cs with
  | c :: rest => if p c then c :: take_while p rest else []
  | [] => []
  end.

(** [(0x[0-9a-fA-F]+|\d+)]: the hexadecimal alternative is tried first. *)
Definition match_number (cs : list ascii) : option (list ascii) :=
  let decimal :=
    match take_while is_digit cs with
    | [] => None
    | ds => Some ds
    end in
  match cs with
  | z :: x :: rest =>
      if Ascii.eqb z "0"%char && eqb_ci x "x"%char then
        match take_while is_hex rest with
        | [] => decimal
        | hs => Some (z :: x :: hs)
        end
      else decimal
  | _ => decimal
  end.

Definition is_assign (c : ascii) : bool := Ascii.eqb c ":"%char || Ascii.eqb c "="%char.

Definition match_at (name text : list ascii) : option (list ascii) :=
  match match_name name text with
  | Some rest =>
      match lstrip_chars rest with
      | c :: rest' => if is_assign c then match_number (lstrip_chars rest') else None
      | [] => None
      end
  | None => None
  end.

Fixpoint search_chars (name text : list ascii) : option (list ascii) :=
  match match_at name text with
  | Some g => Some g
  | None =>
      match text with
      | [] => None
      | _ :: text' => search_chars name text'
      end
  end.

Definition search_assign (name text : string) : option string :=
  string_of_list_ascii <$> search_chars (list_ascii_of_string name) (list_ascii_of_string text).

Definition INSPECT_FEE_REGEXES : list string := ["feeCap"; "maxFeePerGas"].
Definition INSPECT_TIP_REGEXES : list string := ["tip"; "maxPriorityFeePerGas"].
Definition INSPECT_GASPRICE_REGEXES : list string := ["gasprice"; "gasPrice"].

(** [parse_int_from_patterns]: the first pattern that matches decides; the
    conversion of its group may raise. *)
Fixpoint parse_int_from_patterns (text : string) (patterns : list string) : exc (option Z) :=
  match patterns with
  | [] => Ok None
  | pat :: rest =>
      match search_assign pat text with
      | Some g => n ← hex_to_int (PStr g); Ok (Some n)
      | None => parse_int_from_patterns text rest
      end
  end.

(** *** Sampling *)

(** The body of the [try] of the status loop: the maxima move only when both
    counts were read. *)
Definition status_poll (env : Env) (mx : Z * Z) (w : World) : (Z * Z) * World :=
  let '(r, w) := rpc_call env "txpool_status" [] w in
  match r with
  | Fault => (mx, w)
  | Result v =>
      let status := or_else v (PDict []) in
      let read :=
        pv ← get_default status "pending" (PInt 0);
        p ← hex_to_int pv;
        qv ← get_default status "queued" (PInt 0);
        q ← hex_to_int qv;
        Ok (p, q) in
      match read with
      | Ok (p, q) => ((if mx.1 <? p then p else mx.1, if mx.2 <? q then q else mx.2), w)
      | Raise => (mx, w)
      end
  end.

Fixpoint status_loop (env : Env) (cfg : config) (rounds : nat) (mx : Z * Z)
    (w : World) : exc ((Z * Z) * World) :=
  match rounds with
  | O => Ok (mx, w)
  | S rounds' =>
      let '(mx, w) := status_poll env mx w in
      w ← sleep_briefly env (SLEEP_MS_MIN cfg) (SLEEP_MS_JITTER cfg) w;
      status_loop env cfg rounds' mx w
  end.

(** [for _ in range(max(1, SAMPLES))] *)
Definition sample_status (env : Env) (cfg : config) (w : World) : exc ((Z * Z) * World) :=
  status_loop env cfg (Z.to_nat (Z.max 1 (SAMPLES cfg))) (0, 0) w.

(** The nonce of a key of a nonce map: [int(nonce_str, 0)], then the second
    attempt; [None] is the [continue] that skips the entry. *)
Definition parse_nonce (nonce_str : string) : option Z :=
  match int_of_str 0 nonce_str with
  | Some n => Some n
  | None =>
      if startswith "0x" nonce_str then int_of_str 16 nonce_str
      else int_of_str 10 nonce_str
  end.

Definition entry : Type := string * Z * string.

Record agg : Type := {
  pending_nonces : gmap string (gset Z);
  queued_entries : list entry
}.

Definition agg0 : agg := {| pending_nonces := ∅; queued_entries := [] |}.

(** [s.add(nonce)] for every key that parses. *)
Definition add_nonces (keys : list string) (s : gset Z) : gset Z :=
  fold_left (fun s k => match parse_nonce k with Some n => s ∪ {[n]} | None => s end) keys s.

(** One [(addr, nonce_map)] item of the pending map: the set of the sender
    exists afterwards even when nothing was added. *)
Definition harvest_sender (pn : gmap string (gset Z)) (item : string * pyval)
    : gmap string (gset Z) :=
  let a := lower item.1 in
  let s := default ∅ (pn !! a) in
  match item.2 with
  | PDict entries => <[a := add_nonces (map fst entries) s]> pn
  | _ => <[a := s]> pn
  end.

(** One [(addr, nonce_map)] item of the queued map. *)
Definition collect_sender (qe : list entry) (item : string * pyval) : list entry :=
  let a := lower item.1 in
  match item.2 with
  | PDict entries =>
      fold_left (fun qe kv =>
                   match parse_nonce kv.1 with
                   | Some n => qe ++ [(a, n, str kv.2)]
                   | None => qe
                   end) entries qe
  | _ => qe
  end.

(** What one snapshot adds; [insp.get] is outside any [try] here. *)
Definition ingest (insp : pyval) (st : agg) : exc agg :=
  pm ← get insp "pending";
  let pn :=
    match or_else pm (PDict []) with
    | PDict senders => fold_left harvest_sender senders (pending_nonces st)
    | _ => pending_nonces st
    end in
  qm ← get insp "queued";
  let qe :=
    match or_else qm (PDict []) with
    | PDict senders => fold_left collect_sender senders (queued_entries st)
    | _ => queued_entries st
    end in
  Ok {| pending_nonces := pn; queued_entries := qe |}.

Fixpoint inspect_loop (env : Env) (cfg : config) (rounds : nat) (st : agg)
    (w : World) : exc (agg * World) :=
  match rounds with
  | O => Ok (st, w)
  | S rounds' =>
      let '(_, w) := get_pending_basefee_wei env w in
      let '(r, w) := rpc_call env "txpool_inspect" [] w in
      match r with
      | Fault =>
          w ← sleep_briefly env (SLEEP_MS_MIN cfg) (SLEEP_MS_JITTER cfg) w;
          inspect_loop env cfg rounds' st w
      | Result v =>
          st ← ingest (or_else v (PDict [])) st;
          w ← sleep_briefly env (SLEEP_MS_MIN cfg) (SLEEP_MS_JITTER cfg) w;
          inspect_loop env cfg rounds' st w
      end
  end.

(** [for _ in range(max(1, INSPECT_HITS))] *)
Definition collate (env : Env) (cfg : config) (w : World) : exc (agg * World) :=
  inspect_loop env cfg (Z.to_nat (Z.max 1 (INSPECT_HITS cfg))) agg0 w.

(** Snapshots ingested one after the other. *)
Fixpoint ingest_all (snapshots : list pyval) (st : agg) : exc agg :=
  match snapshots with
  | [] => Ok st
  | s :: rest => st ← ingest s st; ingest_all rest st
  end.

(** [{(a, n, s) for (a, n, s) in queued_entries}] *)
Definition unique_entries (qe : list entry) : gset entry := list_to_set qe.

(** *** The aggregate as a join

    What the classifier reads from the aggregate, and the join under which
    ingestion is a merge. *)

Definition view : Type := gmap string (gset Z) * gset entry.

Definition view_of (st : agg) : view :=
  (pending_nonces st, unique_entries (queued_entries st)).

(** Sender by sender, the union of the nonce sets. *)
Definition merge_nonces (m1 m2 : gmap string (gset Z)) : gmap string (gset Z) :=
  union_with (fun s1 s2 => Some (s1 ∪ s2)) m1 m2.

Definition view_join (v1 v2 : view) : view := (merge_nonces v1.1 v2.1, v1.2 ∪ v2.2).

(** What a snapshot brings on its own. *)
Definition contribution (insp : pyval) : view :=
  match ingest insp agg0 with
  | Ok d => view_of d
  | Raise => (∅, ∅)
  end.

(** *** Classification *)

Inductive reason : Type := nonce_gap | below_floor | under_basefee | unknown.

Definition reason_name (r : reason) : string :=
  match r with
  | nonce_gap => "nonce_gap"
  | below_floor => "below_floor"
  | under_basefee => "under_basefee"
  | unknown => "unknown"
  end.

(** [get_next_nonce]: the cache is consulted first and filled on a miss, also
    with the 0 that stands for a failed query. *)
Definition get_next_nonce (env : Env) (addr : string) (cache : gmap string Z)
    (w : World) : Z * gmap string Z * World :=
  match cache !! addr with
  | Some nn => (nn, cache, w)
  | None =>
      let '(r, w) := rpc_call env "eth_getTransactionCount" [PStr addr; PStr "pending"] w in
      let nn :=
        match r with
        | Result v =>
            match hex_to_int (or_else v (PStr "0x0")) with
            | Ok z => z
            | Raise => 0
            end
        | Fault => 0
        end in
      (nn, <[addr := nn]> cache, w)
  end.

(** [all((n in pending_for_addr) for n in range(nn, max(nn, nonce)))] *)
Definition has_all_prior (pending_for_addr : gset Z) (nn nonce : Z) : bool :=
  forallb (fun n => bool_decide (n ∈ pending_for_addr)) (range nn (Z.max nn nonce)).

Definition is_nonce_gap (pending_for_addr : gset Z) (nn nonce : Z) : bool :=
  (nn <? nonce) && negb (has_all_prior pending_for_addr nn nonce).

(** The [else] branch: the three fields are read in the order of the source,
    the base fee is asked for only when no gas price was seen and a fee cap
    was. *)
Definition classify_pricing (env : Env) (cfg : config) (summary : string)
    (w : World) : exc (reason * World) :=
  fee_cap ← parse_int_from_patterns summary INSPECT_FEE_REGEXES;
  tip_cap ← parse_int_from_patterns summary INSPECT_TIP_REGEXES;
  gas_price ← parse_int_from_patterns summary INSPECT_GASPRICE_REGEXES;
  match gas_price with
  | Some g => Ok (if g <? Z.max (WEI_FLOOR cfg) 0 then below_floor else unknown, w)
  | None =>
      match fee_cap with
      | Some f =>
          let '(basefee_now, w) := get_pending_basefee_wei env w in
          Ok (if f <? basefee_now then under_basefee else unknown, w)
      | None => Ok (unknown, w)
      end
  end.

(** The reason of one queued entry. *)
Definition classify_entry (env : Env) (cfg : config) (pn : gmap string (gset Z))
    (e : entry) (cache : gmap string Z) (w : World)
    : exc (reason * gmap string Z * World) :=
  let '(addr, nonce, summary) := e in
  let '(nn, cache, w) := get_next_nonce env addr cache w in
  let pending_for_addr := default ∅ (pn !! addr) in
  if is_nonce_gap pending_for_addr nn nonce then Ok (nonce_gap, cache, w)
  else
    '(r, w) ← classify_pricing env cfg summary w;
    Ok (r, cache, w).

Record tallies : Type := {
  reasons_count : gmap string Z;
  reasons_by_sender : gmap string (gmap string Z)
}.

Definition tallies0 : tallies :=
  {| reasons_count :=
       list_to_map [("nonce_gap", 0); ("below_floor", 0); ("under_basefee", 0); ("unknown", 0)];
     reasons_by_sender := ∅ |}.

Definition bump (k : string) (m : gmap string Z) : gmap string Z :=
  <[k := default 0 (m !! k) + 1]> m.

Definition tally (addr : string) (r : reason) (t : tallies) : tallies :=
  {| reasons_count := bump (reason_name r) (reasons_count t);
     reasons_by_sender :=
       <[addr := bump (reason_name r) (default ∅ (reasons_by_sender t !! addr))]>
         (reasons_by_sender t) |}.

(** The classification loop over the queued entries in the order given. *)
Fixpoint classify_all (env : Env) (cfg : config) (pn : gmap string (gset Z))
    (entries : list entry) (verdicts : list (entry * reason)) (t : tallies)
    (cache : gmap string Z) (w : World)
    : exc (list (entry * reason) * tallies * gmap string Z * World) :=
  match entries with
  | [] => Ok (verdicts, t, cache, w)
  | e :: rest =>
      '(r, cache, w) ← classify_entry env cfg pn e cache w;
      classify_all env cfg pn rest (verdicts ++ [(e, r)]) (tally e.1.1 r t) cache w
  end.

(** *** The consolidated per-sender view *)

(** [sorted(s)] of a set of integers. *)
Definition sorted_nonces (s : gset Z) : list Z := merge_sort Z.le (elements s).

(** [queued_nonces_by_addr] *)
Definition queued_nonces (entries : list entry) : gmap string (gset Z) :=
  fold_left (fun m e => <[e.1.1 := default ∅ (m !! e.1.1) ∪ {[e.1.2]}]> m) entries ∅.

Record row : Type := {
  row_address : string;
  next_nonce : Z;
  pending_count : Z;
  queued_count : Z;
  pending_min : option Z;
  pending_max : option Z;
  queued_min : option Z;
  queued_max : option Z;
  first_gap_nonce : Z;
  has_union_nonce_gap : bool;
  reasons : gmap string Z
}.

(** [while first_gap in pending: first_gap += 1], at most [fuel] steps; the
    set is finite, [size s] steps are enough ([first_gap_from_spec]). *)
Fixpoint first_gap_from (fuel : nat) (s : gset Z) (n : Z) : Z :=
  match fuel with
  | O => n
  | S fuel' => if bool_decide (n ∈ s) then first_gap_from fuel' s (n + 1) else n
  end.

Definition first_gap (s : gset Z) (nn : Z) : Z := first_gap_from (size s) s nn.

(** [min(l)] of a non-empty list. *)
Definition list_min (x : Z) (l : list Z) : Z := fold_left Z.min l x.

Definition summarize_addr (env : Env) (pn qn_by_addr : gmap string (gset Z))
    (rbs : gmap string (gmap string Z)) (a : string) (cache : gmap string Z)
    (w : World) : row * gmap string Z * World :=
  let pn_a := sorted_nonces (default ∅ (pn !! a)) in
  let qn_a := sorted_nonces (default ∅ (qn_by_addr !! a)) in
  let '(nn, cache, w) := get_next_nonce env a cache w in
  let fg := first_gap (default ∅ (pn !! a)) nn in
  let has_union_gap :=
    existsb (fun q => nn <? q) qn_a
    && (fg <? match qn_a with [] => fg | q :: qs => list_min q qs end) in
  ({| row_address := a;
      next_nonce := nn;
      pending_count := Z.of_nat (length pn_a);
      queued_count := Z.of_nat (length qn_a);
      pending_min := head pn_a;
      pending_max := last pn_a;
      queued_min := head qn_a;
      queued_max := last qn_a;
      first_gap_nonce := fg;
      has_union_nonce_gap := has_union_gap;
      reasons := default ∅ (rbs !! a) |}, cache, w).

Fixpoint summarize_all (env : Env) (pn qn_by_addr : gmap string (gset Z))
    (rbs : gmap string (gmap string Z)) (addrs : list string) (rows : list row)
    (cache : gmap string Z) (w : World) : list row * gmap string Z * World :=
  match addrs with
  | [] => (rows, cache, w)
  | a :: rest =>
      let '(r, cache, w) := summarize_addr env pn qn_by_addr rbs a cache w in
      summarize_all env pn qn_by_addr rbs rest (rows ++ [r]) cache w
  end.

(** Comparison of the sort keys, Python's order on pairs. *)
Definition key_lt (k1 k2 : Z * Z) : bool :=
  (k1.1 <? k2.1) || ((k1.1 =? k2.1) && (k1.2 <? k2.2)).

(** [x] may stand before [y] in a descending table. *)
Definition not_below {A} (key : A -> Z * Z) (x y : A) : Prop :=
  key_lt (key x) (key y) = false.

(** [sorted(l, key=key, reverse=True)].  The result of a stable sort is
    determined by the input, so a stable insertion sort stands for the
    interpreter's: an element goes in front of the first one whose key is
    not greater, elements with equal keys keep their order. *)
Fixpoint insert_desc {A} (key : A -> Z * Z) (x : A) (l : list A) : list A :=
  match l with
  | [] => [x]
  | y :: l' => if key_lt (key x) (key y) then y :: insert_desc key x l' else x :: l
  end.

Definition sorted_desc {A} (key : A -> Z * Z) (l : list A) : list A :=
  foldr (insert_desc key) [] l.

Definition row_key (r : row) : Z * Z := (queued_count r, pending_count r).

(** The [consolidated] member of the report. *)
Definition consolidated (cfg : config) (rows : list row) : list row :=
  slice_to (CONSOLIDATED_LIMIT cfg) (sorted_desc row_key rows).

Record report : Type := {
  max_pending : Z;
  max_queued : Z;
  queued_unique : Z;
  queued_reasons : gmap string Z;
  verdicts : list (entry * reason);
  synthesized_nonce_gap_addresses : Z;
  consolidated_rows : list row
}.

(** [analyze].  A Python set is iterated in an order of the interpreter's
    choosing; [elements] stands for it.  [verdicts] keeps the reason given to
    each entry, which the source only counts.  The [top_senders] member of
    the report is left out. *)
Definition analyze (env : Env) (cfg : config) : exc (report * World) :=
  '(mx, w) ← sample_status env cfg world0;
  '(st, w) ← collate env cfg w;
  let entries := elements (unique_entries (queued_entries st)) in
  let qn_by_addr := queued_nonces entries in
  '(vs, t, cache, w) ← classify_all env cfg (pending_nonces st) entries [] tallies0 ∅ w;
  let addrs := elements (dom (pending_nonces st) ∪ dom qn_by_addr) in
  let '(rows, _, w) :=
    summarize_all env (pending_nonces st) qn_by_addr (reasons_by_sender t) addrs [] cache w in
  Ok ({| max_pending := mx.1;
         max_queued := mx.2;
         queued_unique := Z.of_nat (length entries);
         queued_reasons := reasons_count t;
         verdicts := vs;
         synthesized_nonce_gap_addresses :=
           Z.of_nat (length (filter (fun r => has_union_nonce_gap r = true) rows));
         consolidated_rows := consolidated cfg rows |}, w).

End Probe.

(** ** The report of the search and what its loop maintains *)

Module SearchReport.

Import TxSearch.

(** [missing_count] of the JSON summary:
    [len(target_hashes) - len(found_transactions) if target_hashes else 0]. *)
Definition missing_count (target_hashes : list string) (st : state) : Z :=
  match target_hashes with
  | [] => 0
  | _ => Z.of_nat (length target_hashes) - Z.of_nat (size (found_transactions st))
  end.

(** The record that hit [hit_num] builds for a pool entry it can read:
    [tx_hash] is the normalized [hash] member of the entry. *)
Definition observed (hit_num : Z) (tx_hash : string) (info : tx_info) : Prop :=
  exists addr nonce_str fields h,
    items_get "hash" fields = Some (PStr h)
    /\ tx_hash = normalize_tx_hash h
    /\ parse_nonce nonce_str = Ok (nonce info)
    /\ address info = normalize_address addr
    /\ data info = PDict fields
    /\ found_in_hit info = hit_num.

(** The counters of [search_stats] fit together. *)
Definition stats_consistent (s : stats) : Prop :=
  0 <= successful_hits s <= total_hits s
  /\ 0 <= failed_hits s <= total_hits s
  /\ total_hits s <= successful_hits s + failed_hits s
  /\ 0 <= pending_searches s <= successful_hits s
  /\ 0 <= queued_searches s <= successful_hits s.

(** Every record is filed under the hash, or the address, it was built for,
    and the key is a target. *)
Definition records_filed (target_hashes target_addresses : list string) (st : state) : Prop :=
  (forall h info, found_transactions st !! h = Some info ->
     h ∈ target_hashes /\ exists n, observed n h info)
  /\ (forall a infos info, found_by_address st !! a = Some infos -> info ∈ infos ->
        a ∈ target_addresses /\ address info = a /\ exists n h, observed n h info).

(** Every record was found in one of the first [n] hits, and the records of
    an address are in the order of the hits. *)
Definition records_dated (n : Z) (st : state) : Prop :=
  (forall h info, found_transactions st !! h = Some info -> 1 <= found_in_hit info <= n)
  /\ (forall a infos, found_by_address st !! a = Some infos ->
        Forall (fun info => 1 <= found_in_hit info <= n) infos
        /\ forall i j x y, infos !! i = Some x -> infos !! j = Some y -> (i <= j)%nat ->
             found_in_hit x <= found_in_hit y).

(** What [st'] has more than [st]: no hash and no address is lost, and the
    list of an address is only extended. *)
Definition extends (st st' : state) : Prop :=
  dom (found_transactions st) ⊆ dom (found_transactions st')
  /\ forall a infos, found_by_address st !! a = Some infos ->
       exists more, found_by_address st' !! a = Some (infos ++ more).

End SearchReport.

(** * Scenarios

    Concrete nodes, settings and snapshots used by the examples below. *)

Module Scenario.

Import Probe.

(** A node that fails every request. *)
Definition dead_node : Env :=
  {| answer := fun _ _ _ => Fault; draw := fun _ => 0; os_sleeps := fun _ _ => true |}.

(** A node whose pending block has base fee 20 and that reports next nonce 3
    for every sender. *)
Definition quiet_node : Env :=
  {| answer := fun _ method _ =>
       if String.eqb method "eth_getTransactionCount" then Result (PStr "0x3")
       else if String.eqb method "eth_getBlockByNumber"
       then Result (PDict [("baseFeePerGas", PStr "0x14")])
       else Result (PDict []);
     draw := fun _ => 0; os_sleeps := fun _ _ => true |}.

(** Floor of 1 gwei, the defaults of the script otherwise. *)
Definition default_config : config :=
  {| SAMPLES := 30; INSPECT_HITS := 30; WEI_FLOOR := 1000000000;
     SLEEP_MS_MIN := 50; SLEEP_MS_JITTER := 50; CONSOLIDATED_LIMIT := 50 |}.

Definition sender : string := "0xab".

(** The sender has nonce 3 pending. *)
Definition pending_3 : gmap string (gset Z) := {[ sender := {[ 3 ]} ]}.

(** The log after the next-nonce query for [sender]. *)
Definition asked_nonce : World :=
  {| calls := [("eth_getTransactionCount", [PStr sender; PStr "pending"])];
     sleeps := [] |}.

(** Both budgets set to 0. *)
Definition zero_budget_config : config :=
  {| SAMPLES := 0; INSPECT_HITS := 0; WEI_FLOOR := 1000000000;
     SLEEP_MS_MIN := 50; SLEEP_MS_JITTER := 50; CONSOLIDATED_LIMIT := 50 |}.

(** A row of the consolidated table with the given counts. *)
Definition row_of (a : string) (queued pending : Z) : row :=
  {| row_address := a; next_nonce := 0; pending_count := pending;
     queued_count := queued; pending_min := None; pending_max := None;
     queued_min := None; queued_max := None; first_gap_nonce := 0;
     has_union_nonce_gap := false; reasons := ∅ |}.

End Scenario.

(** Scenarios of the search tool. *)
Module SearchScenario.

Import TxSearch.

(** The content of a pool entry with the given hash. *)
Definition tx (h : string) : pyval := PDict [("hash", PStr h)].

(** [0xaaa] pending at nonce 7 of sender [0x01]. *)
Definition snap_a : pyval :=
  PDict [("pending", PDict [("0x01", PDict [("7", tx "0xaaa")])])].

(** The same transaction, now queued. *)
Definition snap_a_queued : pyval :=
  PDict [("queued", PDict [("0x01", PDict [("7", tx "0xaaa")])])].

(** [0xbbb] queued at nonce 9 of sender [0x02]. *)
Definition snap_b : pyval :=
  PDict [("queued", PDict [("0x02", PDict [("0x9", tx "0xbbb")])])].

(** An entry with an unreadable nonce in front of the entry of [0xaaa]. *)
Definition snap_malformed : pyval :=
  PDict [("pending", PDict [("0x01", PDict [("zz", tx "0xbbb"); ("7", tx "0xaaa")])])].

(** A node that answers [snap_a] to every request. *)
Definition node_a : Env :=
  {| answer := fun _ _ _ => Result snap_a;
     draw := fun _ => 0; os_sleeps := fun _ _ => true |}.

(** A node that answers [snap_a], then [snap_b], then fails. *)
Definition node_a_then_b : Env :=
  {| answer := fun k _ _ =>
       match k with
       | O => Result snap_a
       | S O => Result snap_b
       | _ => Fault
       end;
     draw := fun _ => 0; os_sleeps := fun _ _ => true |}.

(** A node that answers [snap_malformed] to every request. *)
Definition node_malformed : Env :=
  {| answer := fun _ _ _ => Result snap_malformed;
     draw := fun _ => 0; os_sleeps := fun _ _ => true |}.

(** [--hashes 0xaaa,0xaaa --hits 3] *)
Definition args_duplicate : args :=
  {| hashes := "0xaaa,0xaaa"; addresses := ""; hits := 3; sleep := 100; jitter := 50 |}.

(** [--hashes 0xaaa,0xbbb --hits n] *)
Definition args_two_hits (n : Z) : args :=
  {| hashes := "0xaaa,0xbbb"; addresses := ""; hits := n; sleep := 100; jitter := 50 |}.

(** [--hashes 0xaaa --hits 2] *)
Definition args_one : args :=
  {| hashes := "0xaaa"; addresses := ""; hits := 2; sleep := 100; jitter := 50 |}.

End SearchScenario.

(** Further scenarios. *)
Module MoreScenario.

Import TxSearch.


(** [--hashes 0xaaa --hits 2 --jitter -1] *)
Definition args_one_negative_jitter : args :=
  {| hashes := "0xaaa"; addresses := ""; hits := 2; sleep := 100; jitter := -1 |}.

(** [--addresses 0x01 --hits 3] *)
Definition args_address : args :=
  {| hashes := ""; addresses := "0x01"; hits := 3; sleep := 100; jitter := 50 |}.

(** [SLEEP_MS_MIN=10000000000000000], the defaults otherwise. *)
Definition oversleeping_config : Probe.config :=
  {| Probe.SAMPLES := 30; Probe.INSPECT_HITS := 30; Probe.WEI_FLOOR := 1000000000;
     Probe.SLEEP_MS_MIN := 10000000000000000; Probe.SLEEP_MS_JITTER := 50;
     Probe.CONSOLIDATED_LIMIT := 50 |}.

(** A node that answers every request with a list. *)
Definition node_of_lists : Env :=
  {| answer := fun _ _ _ => Result (PList [PInt 1]);
     draw := fun _ => 0; os_sleeps := fun _ _ => true |}.

(** A node that reports negative pool sizes. *)
Definition node_of_negative_sizes : Env :=
  {| answer := fun _ _ _ => Result (PDict [("pending", PInt (-5)); ("queued", PStr "-7")]);
     draw := fun _ => 0; os_sleeps := fun _ _ => true |}.

(** A queued entry of the sender [0xab] at nonce 9 with a legacy gas price
    below the floor, and one of the sender [0xcd] at nonce 1 with no price. *)
Definition snap_two_queued : pyval :=
  PDict [("queued",
          PDict [("0xab", PDict [("9", PStr "gasPrice: 5")]);
                 ("0xcd", PDict [("1", PStr "no price")])])].

(** A node that answers [snap_two_queued] to [txpool_inspect], next nonce 9
    and 1 to the two senders, and fails the other requests. *)
Definition node_two_queued : Env :=
  {| answer := fun _ method params =>
       if String.eqb method "txpool_inspect" then Result snap_two_queued
       else if String.eqb method "eth_getTransactionCount" then
         match params with
         | PStr "0xab" :: _ => Result (PStr "0x9")
         | _ => Result (PStr "0x1")
         end
       else Fault;
     draw := fun _ => 0; os_sleeps := fun _ _ => true |}.

(** One status sample and one inspect sample. *)
Definition single_sample_config : Probe.config :=
  {| Probe.SAMPLES := 1; Probe.INSPECT_HITS := 1; Probe.WEI_FLOOR := 1000000000;
     Probe.SLEEP_MS_MIN := 50; Probe.SLEEP_MS_JITTER := 50;
     Probe.CONSOLIDATED_LIMIT := 50 |}.

End MoreScenario.

(** * The specification's wording

    Definitions that follow the words of the specification, to be compared
    with the code. *)

Module Stated.

Import Probe.

(** The chain of the pricing branch in the words of the specification: each
    test is tried when the one before it did not decide. *)
Definition stated_pricing_reason (floor basefee : Z) (gas_price fee_cap : option Z) : reason :=
  if match gas_price with Some g => g <? floor | None => false end then below_floor
  else if match fee_cap with Some f => f <? basefee | None => false end then under_basefee
  else unknown.

End Stated.

(** * Properties *)

(** ** Integers read from text *)

Section IntFacts.

Lemma digit_val_nonneg c d : digit_val c = Some d -> 0 <= d.
Proof.
  unfold digit_val, is_digit. intros H.
  repeat case_match; simplify_eq; lia.
Qed.

Lemma scan_digits_nonneg cs : forall b prev acc n v n' rest,
  0 <= b -> 0 <= acc ->
  scan_digits b prev acc n cs = Some (v, n', rest) -> 0 <= v.
Proof.
  induction cs as [|c cs IH]; intros b prev acc n v n' rest Hb Hacc; simpl.
  - destruct prev; intros; simplify_eq; lia.
  - destruct (is_underscore c).
    + destruct prev; [done|]. apply IH; lia.
    + destruct (digit_val c) as [d|] eqn:Hd.
      * destruct (d <? b).
        -- apply IH; [lia|]. apply digit_val_nonneg in Hd. nia.
        -- destruct prev; intros; simplify_eq; lia.
      * destruct prev; intros; simplify_eq; lia.
Qed.

Lemma eqb_code a b : Ascii.eqb a b = true -> code a = code b.
Proof. intros H%Ascii.eqb_eq. by subst. Qed.

Lemma digit_not_blank c : is_digit c = true -> is_blank c = false.
Proof. unfold is_digit, is_blank. lia. Qed.

Lemma take_sign_digit c rest :
  is_digit c = true -> take_sign (c :: rest) = (1, c :: rest).
Proof.
  intros Hc. unfold take_sign, is_digit in *.
  destruct (Ascii.eqb c "+") eqn:E1.
  { apply eqb_code in E1. change (code "+") with 43 in E1. lia. }
  destruct (Ascii.eqb c "-") eqn:E2.
  { apply eqb_code in E2. change (code "-") with 45 in E2. lia. }
  done.
Qed.

(** A literal that starts with a digit has no sign: its value is not
    negative. *)
Lemma int_of_chars_nonneg b c rest v :
  is_digit c = true -> b <> 0 -> 0 <= b ->
  int_of_chars b (c :: rest) = Some v -> 0 <= v.
Proof.
  intros Hc Hb0 Hb. unfold int_of_chars. simpl skip_blanks.
  rewrite (digit_not_blank c Hc), (take_sign_digit c rest Hc).
  assert (Hp : pick_base b (c :: rest) = (b, false)).
  { unfold pick_base. destruct (b =? 0) eqn:E; [lia|done]. }
  rewrite Hp.
  destruct (skip_prefix b (c :: rest)) as [|u cs2] eqn:Hsk; [done|].
  destruct (is_underscore u); [done|].
  destruct (scan_digits b false 0 0%nat (u :: cs2)) as [[[v' n'] r]|] eqn:Hsc; [|done].
  apply scan_digits_nonneg in Hsc; [|lia..].
  repeat case_match; intros; simplify_eq; lia.
Qed.

End IntFacts.

(** ** The summary patterns *)

Section PatternFacts.

Import Probe.

Lemma take_while_head p cs c r : take_while p cs = c :: r -> p c = true.
Proof.
  destruct cs as [|c' cs]; simpl; [done|].
  destruct (p c') eqn:E; [|done]. by intros [= -> _].
Qed.

Lemma match_number_head cs g :
  match_number cs = Some g -> exists c r, g = c :: r /\ is_digit c = true.
Proof.
  assert (Hdec : forall g,
    match take_while is_digit cs with [] => None | ds => Some ds end = Some g ->
    exists c r, g = c :: r /\ is_digit c = true).
  { intros g'. destruct (take_while is_digit cs) as [|c r] eqn:E; [done|].
    intros [= <-]. exists c, r. split; [done|]. by eapply take_while_head. }
  unfold match_number.
  destruct cs as [|z [|x rest]]; try apply Hdec.
  destruct (Ascii.eqb z "0" && eqb_ci x "x") eqn:E; [|apply Hdec].
  destruct (take_while is_hex rest) as [|h hs] eqn:Eh; [apply Hdec|].
  intros [= <-]. exists z, (x :: h :: hs). split; [done|].
  apply andb_prop in E as [E _]. apply Ascii.eqb_eq in E. by subst.
Qed.

Lemma search_chars_head name text g :
  search_chars name text = Some g -> exists c r, g = c :: r /\ is_digit c = true.
Proof.
  induction text as [|t text IH]; simpl.
  - destruct (match_at name []) as [g'|] eqn:E; [|done].
    intros [= <-]. unfold match_at in E.
    repeat case_match; simplify_eq; eauto using match_number_head.
  - destruct (match_at name (t :: text)) as [g'|] eqn:E; [|done].
    intros [= <-]. unfold match_at in E.
    repeat case_match; simplify_eq; eauto using match_number_head.
Qed.

Lemma hex_to_int_group_nonneg c r n :
  is_digit c = true ->
  hex_to_int (PStr (string_of_list_ascii (c :: r))) = Ok n -> 0 <= n.
Proof.
  intros Hc. unfold hex_to_int, str, int_of_str.
  rewrite list_ascii_of_string_of_list_ascii.
  destruct (startswith _ _);
    destruct (int_of_chars _ _) as [v|] eqn:E; simpl; try done;
    intros [= <-]; eapply int_of_chars_nonneg in E; done.
Qed.

Lemma parse_int_from_patterns_cons text pat pats :
  parse_int_from_patterns text (pat :: pats) =
  match search_chars (list_ascii_of_string pat) (list_ascii_of_string text) with
  | Some g =>
      match hex_to_int (PStr (string_of_list_ascii g)) with
      | Ok n => Ok (Some n)
      | Raise => Raise
      end
  | None => parse_int_from_patterns text pats
  end.
Proof.
  cbn [parse_int_from_patterns]. unfold search_assign.
  by destruct (search_chars _ _).
Qed.

(** A number read from a summary is never negative. *)
Lemma parse_int_from_patterns_nonneg text pats n :
  parse_int_from_patterns text pats = Ok (Some n) -> 0 <= n.
Proof.
  induction pats as [|pat pats IH]; [done|].
  rewrite parse_int_from_patterns_cons.
  destruct (search_chars _ _) as [g|] eqn:E; [|done].
  apply search_chars_head in E as (c & r & -> & Hc).
  destruct (hex_to_int (PStr (string_of_list_ascii (c :: r)))) as [v|] eqn:Ev; [|done].
  intros ?; simplify_eq. by eapply hex_to_int_group_nonneg.
Qed.

End PatternFacts.

(** ** The classifier *)

Section ClassifierFacts.

Import Probe.

Lemma elem_of_range n lo hi : n ∈ range lo hi <-> lo <= n < hi.
Proof.
  unfold range. rewrite list_elem_of_fmap. split.
  - intros (i & -> & Hi). apply elem_of_seq in Hi. lia.
  - intros H. exists (Z.to_nat (n - lo)). split; [lia|].
    apply elem_of_seq. lia.
Qed.

Lemma length_range lo hi : length (range lo hi) = Z.to_nat (hi - lo).
Proof. unfold range. by rewrite length_map, length_seq. Qed.

Lemma forallb_false {A} (f : A -> bool) (l : list A) :
  forallb f l = false <-> exists x, x ∈ l /\ f x = false.
Proof.
  induction l as [|a l IH]; simpl.
  - split; [done|]. intros (x & Hx & _). by apply elem_of_nil in Hx.
  - rewrite andb_false_iff, IH. split.
    + intros [Ha|(x & Hx & Hf)]; [exists a|exists x]; split; auto;
        apply elem_of_cons; auto.
    + intros (x & [->|Hx]%elem_of_cons & Hf); eauto.
Qed.

Lemma has_all_prior_false s nn nonce :
  has_all_prior s nn nonce = false <-> exists n, nn <= n < nonce /\ n ∉ s.
Proof.
  unfold has_all_prior. rewrite forallb_false. split.
  - intros (n & Hn%elem_of_range & Hs%bool_decide_eq_false_1).
    exists n. split; [lia|done].
  - intros (n & Hn & Hs). exists n. split.
    + apply elem_of_range. lia.
    + by apply bool_decide_eq_false_2.
Qed.

Lemma is_nonce_gap_true s nn nonce :
  is_nonce_gap s nn nonce = true <->
  nn < nonce /\ exists n, nn <= n < nonce /\ n ∉ s.
Proof.
  unfold is_nonce_gap.
  by rewrite andb_true_iff, negb_true_iff, has_all_prior_false, Z.ltb_lt.
Qed.

(** C4.  Nonce-gap detection takes precedence over pricing: a queued entry
    whose nonce is greater than the sender's next nonce, with some nonce of
    [next_nonce, nonce) missing from the sender's pending set, is
    classified [nonce_gap] whatever its summary says. *)
Theorem nonce_gap_takes_precedence env cfg pn addr nonce summary cache w nn cache' w' :
  get_next_nonce env addr cache w = (nn, cache', w') ->
  nn < nonce ->
  (exists n, nn <= n < nonce /\ n ∉ default ∅ (pn !! addr)) ->
  classify_entry env cfg pn (addr, nonce, summary) cache w = Ok (nonce_gap, cache', w').
Proof.
  intros Hnn Hlt Hgap. unfold classify_entry. rewrite Hnn.
  assert (is_nonce_gap (default ∅ (pn !! addr)) nn nonce = true) as ->; [|done].
  by apply is_nonce_gap_true.
Qed.

(** Nonce 5, next nonce 3, pending set {3}: [nonce_gap], with fee data in
    the summary. *)
Lemma nonce_gap_takes_precedence_witness :
  classify_entry Scenario.quiet_node Scenario.default_config Scenario.pending_3
    (Scenario.sender, 5, "gasPrice: 1 feeCap: 1") ∅ world0
  = Ok (nonce_gap, {[ Scenario.sender := 3 ]},
        Scenario.asked_nonce).
Proof.
  apply (nonce_gap_takes_precedence _ _ _ _ _ _ _ _ 3).
  - reflexivity.
  - lia.
  - exists 4. split; [lia|]. unfold Scenario.pending_3.
    rewrite lookup_singleton_eq. simpl. set_solver.
Defined.

End ClassifierFacts.

Section PricingFacts.

Import Probe.

Lemma get_pending_basefee_wei_fault env w :
  answer env (length (calls w)) "eth_getBlockByNumber" [PStr "pending"; PBool false] = Fault ->
  get_pending_basefee_wei env w
  = (0, (rpc_call env "eth_getBlockByNumber" [PStr "pending"; PBool false] w).2).
Proof. unfold get_pending_basefee_wei, rpc_call. by intros ->. Qed.

(** What [classify_pricing] returns once the three fields are read. *)
Lemma classify_pricing_eq env cfg summary w fee tip gas :
  parse_int_from_patterns summary INSPECT_FEE_REGEXES = Ok fee ->
  parse_int_from_patterns summary INSPECT_TIP_REGEXES = Ok tip ->
  parse_int_from_patterns summary INSPECT_GASPRICE_REGEXES = Ok gas ->
  classify_pricing env cfg summary w =
  match gas, fee with
  | Some g, _ => Ok (if g <? WEI_FLOOR cfg then below_floor else unknown, w)
  | None, Some f =>
      Ok (if f <? (get_pending_basefee_wei env w).1 then under_basefee else unknown,
          (get_pending_basefee_wei env w).2)
  | None, None => Ok (unknown, w)
  end.
Proof.
  intros Hf Ht Hg. unfold classify_pricing. rewrite Hf, Ht, Hg. simpl.
  destruct gas as [g|].
  - apply parse_int_from_patterns_nonneg in Hg.
    destruct (Z.ltb_spec g (Z.max (WEI_FLOOR cfg) 0)), (Z.ltb_spec g (WEI_FLOOR cfg));
      try done; lia.
  - destruct fee as [f|]; [|done]. by destruct (get_pending_basefee_wei env w).
Qed.

(** The classifier raises only when a field of the summary does not convert. *)
Lemma classify_pricing_raised env cfg summary w :
  raised (classify_pricing env cfg summary w) = true ->
  exists pats,
    pats ∈ [INSPECT_FEE_REGEXES; INSPECT_TIP_REGEXES; INSPECT_GASPRICE_REGEXES]
    /\ parse_int_from_patterns summary pats = Raise.
Proof.
  destruct (parse_int_from_patterns summary INSPECT_FEE_REGEXES) as [fee|] eqn:Hf;
    [|intros _; eexists; split; [|exact Hf]; set_solver].
  destruct (parse_int_from_patterns summary INSPECT_TIP_REGEXES) as [tip|] eqn:Ht;
    [|intros _; eexists; split; [|exact Ht]; set_solver].
  destruct (parse_int_from_patterns summary INSPECT_GASPRICE_REGEXES) as [gas|] eqn:Hg;
    [|intros _; eexists; split; [|exact Hg]; set_solver].
  rewrite (classify_pricing_eq _ _ _ _ _ _ _ Hf Ht Hg).
  by destruct gas, fee.
Qed.

(** C2, as stated, does not hold: with a legacy gas price of 2 gwei (not
    below the 1 gwei floor) and a fee cap of 10 under a base fee of 20 the
    stated chain gives [under_basefee], the classifier gives [unknown]; the
    fee cap is not looked at once a gas price was seen. *)
Lemma pricing_chain_counterexample :
  ~ (forall env cfg pn addr nonce summary cache w nn cache1 w1 fee gas r cache2 w2,
        get_next_nonce env addr cache w = (nn, cache1, w1) ->
        is_nonce_gap (default ∅ (pn !! addr)) nn nonce = false ->
        parse_int_from_patterns summary INSPECT_FEE_REGEXES = Ok fee ->
        parse_int_from_patterns summary INSPECT_GASPRICE_REGEXES = Ok gas ->
        classify_entry env cfg pn (addr, nonce, summary) cache w = Ok (r, cache2, w2) ->
        r = Stated.stated_pricing_reason (WEI_FLOOR cfg) (get_pending_basefee_wei env w1).1 gas fee).
Proof.
  intros H.
  specialize (H Scenario.quiet_node Scenario.default_config Scenario.pending_3
                Scenario.sender 4 "feeCap: 10 gasPrice: 2000000000" ∅ world0
                3 {[ Scenario.sender := 3 ]} Scenario.asked_nonce
                (Some 10) (Some 2000000000)
                unknown {[ Scenario.sender := 3 ]} Scenario.asked_nonce).
  vm_compute in H.
  discriminate (H eq_refl eq_refl eq_refl eq_refl eq_refl).
Qed.

(** C2, amended.  For a queued entry with no nonce gap whose summary fields
    convert: when a legacy gas price is found, the reason is [below_floor] if
    it is below the floor and [unknown] otherwise; when none is found and a
    fee cap is, the reason is [under_basefee] if the cap is below the base fee
    of the pending block asked for at that moment and [unknown] otherwise;
    with neither, [unknown]. *)
Theorem pricing_fallback_chain env cfg pn addr nonce summary cache w nn cache1 w1 fee tip gas :
  get_next_nonce env addr cache w = (nn, cache1, w1) ->
  is_nonce_gap (default ∅ (pn !! addr)) nn nonce = false ->
  parse_int_from_patterns summary INSPECT_FEE_REGEXES = Ok fee ->
  parse_int_from_patterns summary INSPECT_TIP_REGEXES = Ok tip ->
  parse_int_from_patterns summary INSPECT_GASPRICE_REGEXES = Ok gas ->
  exists r w2,
    classify_entry env cfg pn (addr, nonce, summary) cache w = Ok (r, cache1, w2)
    /\ match gas, fee with
       | Some g, _ => r = if g <? WEI_FLOOR cfg then below_floor else unknown
       | None, Some f =>
           r = if f <? (get_pending_basefee_wei env w1).1 then under_basefee else unknown
       | None, None => r = unknown
       end.
Proof.
  intros Hnn Hgap Hf Ht Hg. unfold classify_entry. rewrite Hnn, Hgap.
  rewrite (classify_pricing_eq _ _ _ _ _ _ _ Hf Ht Hg).
  destruct gas as [g|]; [|destruct fee as [f|]]; simpl; eauto.
Qed.

(** No nonce gap, no gas price, a fee cap of 10 under a base fee of 20:
    [under_basefee]. *)
Lemma pricing_fallback_chain_witness :
  exists r w2,
    classify_entry Scenario.quiet_node Scenario.default_config Scenario.pending_3
      (Scenario.sender, 4, "feeCap: 10") ∅ world0
    = Ok (r, {[ Scenario.sender := 3 ]}, w2)
    /\ r = under_basefee.
Proof.
  destruct (pricing_fallback_chain Scenario.quiet_node Scenario.default_config
              Scenario.pending_3 Scenario.sender 4 "feeCap: 10" ∅ world0
              3 {[ Scenario.sender := 3 ]} Scenario.asked_nonce (Some 10) None None)
    as (r & w2 & Hc & Hr); [reflexivity..|].
  exists r, w2. split; [exact Hc|exact Hr].
Defined.

End PricingFacts.

Section LookupFacts.

Import Probe.

Lemma get_next_nonce_fault env addr cache w :
  cache !! addr = None ->
  answer env (length (calls w)) "eth_getTransactionCount" [PStr addr; PStr "pending"] = Fault ->
  get_next_nonce env addr cache w
  = (0, <[addr := 0]> cache,
     (rpc_call env "eth_getTransactionCount" [PStr addr; PStr "pending"] w).2).
Proof. unfold get_next_nonce, rpc_call. by intros -> ->. Qed.

Lemma get_next_nonce_cached env addr cache w nn :
  cache !! addr = Some nn -> get_next_nonce env addr cache w = (nn, cache, w).
Proof. unfold get_next_nonce. by intros ->. Qed.

(** C3, as stated, does not hold: the node fails every request, also the
    next-nonce query for the sender of an entry with nonce 5, and the entry is
    classified [nonce_gap], not [unknown]. *)
Lemma failed_lookup_counterexample :
  answer Scenario.dead_node 0 "eth_getTransactionCount"
    [PStr Scenario.sender; PStr "pending"] = Fault
  /\ classify_entry Scenario.dead_node Scenario.default_config ∅
       (Scenario.sender, 5, "feeCap: 10") ∅ world0
     = Ok (nonce_gap, {[ Scenario.sender := 0 ]}, Scenario.asked_nonce)
  /\ nonce_gap <> unknown.
Proof. split; [reflexivity|]. split; [reflexivity|discriminate]. Qed.

(** C3, amended.  A next-nonce query that fails is answered 0, which is
    cached, and the entry is classified as it is with next nonce 0 (it can
    still be [nonce_gap]); an entry whose base-fee query fails is [unknown];
    and the classifier raises on an entry only when a field of its summary
    does not convert, never because of a lookup. *)
Theorem failed_lookups_fall_back_to_zero env cfg pn addr nonce summary cache w :
  (cache !! addr = None ->
   answer env (length (calls w)) "eth_getTransactionCount" [PStr addr; PStr "pending"] = Fault ->
   let w1 := (rpc_call env "eth_getTransactionCount" [PStr addr; PStr "pending"] w).2 in
   get_next_nonce env addr cache w = (0, <[addr := 0]> cache, w1)
   /\ classify_entry env cfg pn (addr, nonce, summary) cache w
      = classify_entry env cfg pn (addr, nonce, summary) (<[addr := 0]> cache) w1)
  /\ (forall nn cache1 w1 r cache2 w2,
        get_next_nonce env addr cache w = (nn, cache1, w1) ->
        answer env (length (calls w1)) "eth_getBlockByNumber" [PStr "pending"; PBool false] = Fault ->
        classify_entry env cfg pn (addr, nonce, summary) cache w = Ok (r, cache2, w2) ->
        w2 <> w1 ->
        r = unknown)
  /\ (raised (classify_entry env cfg pn (addr, nonce, summary) cache w) = true ->
      exists pats,
        pats ∈ [INSPECT_FEE_REGEXES; INSPECT_TIP_REGEXES; INSPECT_GASPRICE_REGEXES]
        /\ parse_int_from_patterns summary pats = Raise).
Proof.
  split; [|split].
  - intros Hc Ha w1. split; [by apply get_next_nonce_fault|].
    unfold classify_entry. rewrite (get_next_nonce_fault _ _ _ _ Hc Ha).
    by rewrite (get_next_nonce_cached _ _ (<[addr:=0]> cache) _ 0)
      by apply lookup_insert_eq.
  - intros nn cache1 w1 r cache2 w2 Hnn Ha. unfold classify_entry. rewrite Hnn.
    destruct (is_nonce_gap _ _ _); [by intros [= <- <- <-]|].
    destruct (parse_int_from_patterns summary INSPECT_FEE_REGEXES) as [fee|] eqn:Hf;
      [|by unfold classify_pricing; rewrite Hf].
    destruct (parse_int_from_patterns summary INSPECT_TIP_REGEXES) as [tip|] eqn:Ht;
      [|by unfold classify_pricing; rewrite Hf, Ht].
    destruct (parse_int_from_patterns summary INSPECT_GASPRICE_REGEXES) as [gas|] eqn:Hg;
      [|by unfold classify_pricing; rewrite Hf, Ht, Hg].
    rewrite (classify_pricing_eq _ _ _ _ _ _ _ Hf Ht Hg).
    destruct gas as [g|]; [|destruct fee as [f|]]; simpl; intros ?; simplify_eq; try done.
    intros _. rewrite (get_pending_basefee_wei_fault _ _ Ha). simpl.
    apply parse_int_from_patterns_nonneg in Hf.
    destruct (Z.ltb_spec f 0); [lia|done].
  - unfold classify_entry.
    destruct (get_next_nonce env addr cache w) as [[nn cache1] w1].
    destruct (is_nonce_gap _ _ _); [done|].
    intros H. apply (classify_pricing_raised env cfg summary w1).
    by destruct (classify_pricing env cfg summary w1) as [[r w2]|].
Qed.

(** The node fails every request: an entry with nonce 0 and a fee cap is
    [unknown]; asked with an empty cache, the next nonce is 0. *)
Lemma failed_lookups_fall_back_to_zero_witness :
  get_next_nonce Scenario.dead_node Scenario.sender ∅ world0
  = (0, {[ Scenario.sender := 0 ]}, Scenario.asked_nonce)
  /\ forall r cache2 w2,
       classify_entry Scenario.dead_node Scenario.default_config ∅
         (Scenario.sender, 0, "feeCap: 10") ∅ world0 = Ok (r, cache2, w2) ->
       w2 <> Scenario.asked_nonce -> r = unknown.
Proof.
  destruct (failed_lookups_fall_back_to_zero Scenario.dead_node Scenario.default_config
              ∅ Scenario.sender 0 "feeCap: 10" ∅ world0) as (Hnonce & Hfee & _).
  split.
  - apply Hnonce; reflexivity.
  - intros r cache2 w2.
    apply (Hfee 0 {[ Scenario.sender := 0 ]} Scenario.asked_nonce); reflexivity.
Defined.

End LookupFacts.

(** ** The first gap of a sender *)

Section FirstGapFacts.

Import Probe.

Lemma NoDup_range lo hi : NoDup (range lo hi).
Proof.
  unfold range. apply NoDup_fmap_2_strong; [|apply NoDup_seq].
  intros i j _ _ Hij. lia.
Qed.

Lemma first_gap_from_bounds fuel s : forall n,
  let g := first_gap_from fuel s n in
  n <= g
  /\ (forall k, n <= k < g -> k ∈ s)
  /\ (g ∉ s \/ g = n + Z.of_nat fuel).
Proof.
  induction fuel as [|fuel IH]; intros n; simpl.
  - split; [lia|]. split; [lia|]. right. lia.
  - case_bool_decide as Hn.
    + destruct (IH (n + 1)) as (Hle & Hin & Hend). split; [lia|]. split.
      * intros k Hk. destruct (decide (k = n)) as [->|]; [done|]. apply Hin. lia.
      * destruct Hend as [?|Hg]; [by left|]. right. lia.
    + split; [lia|]. split; [lia|]. by left.
Qed.

(** The loop that looks for the first gap ends on the first nonce from
    [next_nonce] on that is not pending: the steps allowed are enough. *)
Lemma first_gap_from_spec s nn :
  nn <= first_gap s nn
  /\ (first_gap s nn ∉ s)
  /\ forall k, nn <= k < first_gap s nn -> k ∈ s.
Proof.
  unfold first_gap.
  destruct (first_gap_from_bounds (size s) s nn) as (Hle & Hin & Hend).
  split; [done|]. split; [|done].
  destruct Hend as [?|Hg]; [done|]. intros Hgs.
  set (g := first_gap_from (size s) s nn) in *.
  assert (Hsub : (list_to_set (range nn (g + 1)) : gset Z) ⊆ s).
  { intros k Hk%elem_of_list_to_set%elem_of_range.
    destruct (decide (k = g)) as [->|]; [done|]. apply Hin. lia. }
  apply subseteq_size in Hsub.
  rewrite size_list_to_set in Hsub by apply NoDup_range.
  rewrite length_range in Hsub. lia.
Qed.

End FirstGapFacts.

(** ** The consolidated table *)

Section SortFacts.

Import Probe.

Context {A : Type} (key : A -> Z * Z).

#[local] Abbreviation not_below := (not_below key).

Lemma key_lt_false k1 k2 :
  key_lt k1 k2 = false <-> k2.1 < k1.1 \/ (k1.1 = k2.1 /\ k2.2 <= k1.2).
Proof. unfold key_lt. lia. Qed.

Lemma key_lt_true k1 k2 :
  key_lt k1 k2 = true <-> k1.1 < k2.1 \/ (k1.1 = k2.1 /\ k1.2 < k2.2).
Proof. unfold key_lt. lia. Qed.

Lemma not_below_trans x y z : not_below x y -> not_below y z -> not_below x z.
Proof. unfold not_below. rewrite !key_lt_false. lia. Qed.

Lemma insert_desc_perm x l : insert_desc key x l ≡ₚ x :: l.
Proof.
  induction l as [|y l IH]; simpl; [done|].
  destruct (key_lt (key x) (key y)); [|done].
  rewrite IH. apply Permutation_swap.
Qed.

Lemma sorted_desc_perm l : sorted_desc key l ≡ₚ l.
Proof.
  induction l as [|x l IH]; simpl; [done|].
  by rewrite insert_desc_perm, IH.
Qed.

Lemma insert_desc_sorted x l :
  StronglySorted not_below l -> StronglySorted not_below (insert_desc key x l).
Proof.
  induction 1 as [|y l Hl IH Hy]; simpl.
  - repeat constructor.
  - destruct (key_lt (key x) (key y)) eqn:E.
    + constructor; [done|].
      rewrite insert_desc_perm. constructor; [|done].
      unfold not_below. apply key_lt_true in E. apply key_lt_false. lia.
    + constructor; [by constructor|].
      constructor; [done|].
      eapply Forall_impl; [exact Hy|]. intros z. by apply not_below_trans.
Qed.

Lemma sorted_desc_sorted l : StronglySorted not_below (sorted_desc key l).
Proof.
  induction l as [|x l IH]; simpl; [constructor|]. by apply insert_desc_sorted.
Qed.

Lemma StronglySorted_lookup_lt (R : relation A) l : forall i j x y,
  StronglySorted R l -> l !! i = Some x -> l !! j = Some y -> (i < j)%nat -> R x y.
Proof.
  induction l as [|a l IH]; intros i j x y Hs Hi Hj Hlt; [done|].
  apply StronglySorted_inv in Hs as [Hs Ha].
  destruct i as [|i], j as [|j]; simpl in *; try lia.
  - simplify_eq. rewrite Forall_forall in Ha. apply Ha. by eapply list_elem_of_lookup_2.
  - eapply IH; eauto with lia.
Qed.

Lemma slice_to_prefix k (l : list A) : exists rest, l = slice_to k l ++ rest.
Proof.
  unfold slice_to. destruct (k <? 0); eexists; symmetry; apply take_drop.
Qed.

Lemma slice_to_length k (l : list A) :
  length (slice_to k l)
  = Z.to_nat (if k <? 0 then Z.of_nat (length l) + k else Z.min k (Z.of_nat (length l))).
Proof.
  unfold slice_to. destruct (Z.ltb_spec k 0); rewrite length_take; lia.
Qed.

End SortFacts.

Section ConsolidatedFacts.

Import Probe.

(** C9.  The consolidated table is the list of rows sorted by
    [(queued_count, pending_count)] in descending order and cut at the row
    limit: of two of its rows, the one with the larger [queued_count], or on
    equal [queued_count] the larger [pending_count], comes first; the table
    is an initial part of a rearrangement of the rows, of the length the
    limit allows. *)
Theorem consolidated_sorted_and_truncated cfg rows :
  (forall i j r1 r2,
      consolidated cfg rows !! i = Some r1 ->
      consolidated cfg rows !! j = Some r2 ->
      queued_count r2 < queued_count r1
      \/ (queued_count r1 = queued_count r2 /\ pending_count r2 < pending_count r1) ->
      (i < j)%nat)
  /\ (exists rest, consolidated cfg rows ++ rest ≡ₚ rows
                   /\ consolidated cfg rows ++ rest = sorted_desc row_key rows)
  /\ length (consolidated cfg rows)
     = Z.to_nat (if CONSOLIDATED_LIMIT cfg <? 0
                 then Z.of_nat (length rows) + CONSOLIDATED_LIMIT cfg
                 else Z.min (CONSOLIDATED_LIMIT cfg) (Z.of_nat (length rows))).
Proof.
  unfold consolidated.
  destruct (slice_to_prefix (CONSOLIDATED_LIMIT cfg) (sorted_desc row_key rows))
    as [rest Hrest].
  assert (Hs : StronglySorted (not_below row_key)
                 (slice_to (CONSOLIDATED_LIMIT cfg) (sorted_desc row_key rows))).
  { eapply StronglySorted_app_1_l. rewrite <- Hrest. apply sorted_desc_sorted. }
  split; [|split].
  - intros i j r1 r2 Hi Hj Hgt.
    destruct (decide (i < j)%nat) as [|Hge]; [done|]. exfalso.
    assert (Hji : (j < i)%nat \/ i = j) by lia. destruct Hji as [Hji| ->].
    + pose proof (StronglySorted_lookup_lt _ _ _ _ _ _ Hs Hj Hi Hji) as Hnb.
      unfold not_below in Hnb. apply key_lt_false in Hnb.
      unfold row_key in Hnb. simpl in Hnb. lia.
    + simplify_eq. lia.
  - exists rest. split; [|done]. rewrite <- Hrest. apply sorted_desc_perm.
  - rewrite slice_to_length. f_equal.
    by rewrite (Permutation_length (sorted_desc_perm row_key rows)).
Qed.

(** Two senders with 3 queued each, 1 and 5 pending: the one with 5 pending
    is listed first. *)
Lemma consolidated_sorted_and_truncated_witness :
  consolidated Scenario.default_config
    [Scenario.row_of "0x01" 3 1; Scenario.row_of "0x02" 3 5]
  = [Scenario.row_of "0x02" 3 5; Scenario.row_of "0x01" 3 1]
  /\ (0 < 1)%nat.
Proof.
  split; [reflexivity|].
  destruct (consolidated_sorted_and_truncated Scenario.default_config
              [Scenario.row_of "0x01" 3 1; Scenario.row_of "0x02" 3 5]) as (Hord & _).
  apply (Hord 0%nat 1%nat (Scenario.row_of "0x02" 3 5) (Scenario.row_of "0x01" 3 1));
    [reflexivity|reflexivity|].
  right. split; [reflexivity|]. simpl. lia.
Defined.

End ConsolidatedFacts.

(** ** The sampling budgets *)

Section BudgetFacts.

Import Probe.

Lemma count_calls_snoc method w m params sl :
  count_calls method {| calls := calls w ++ [(m, params)]; sleeps := sl |}
  = (count_calls method w + if decide (m = method) then 1 else 0)%nat.
Proof.
  unfold count_calls. simpl. rewrite filter_app, length_app. f_equal.
  rewrite filter_cons, filter_nil. simpl. by case_decide.
Qed.

Lemma sleep_briefly_ok env sleep_min sleep_jitter w :
  sleeps_accepted env sleep_min sleep_jitter ->
  exists d, sleep_briefly env sleep_min sleep_jitter w
            = Ok {| calls := calls w; sleeps := sleeps w ++ [d] |}.
Proof.
  intros (Hm & Hj & Hmax & Hos). unfold sleep_briefly, randint0.
  destruct (Z.ltb_spec sleep_jitter 0); [lia|]. simpl.
  set (r := Z.max 0 (Z.min sleep_jitter (draw env (length (sleeps w))))).
  assert (Hr : 0 <= r <= sleep_jitter) by (unfold r; lia).
  destruct (Z.ltb_spec (sleep_min + r) 0); [lia|].
  destruct (Z.ltb_spec MAX_SLEEP_MS (sleep_min + r)); [lia|].
  rewrite Hos by lia. eauto.
Qed.

Lemma sleep_briefly_count env sleep_min sleep_jitter w w' method :
  sleep_briefly env sleep_min sleep_jitter w = Ok w' ->
  count_calls method w' = count_calls method w.
Proof.
  unfold sleep_briefly, randint0. destruct (sleep_jitter <? 0); [done|]. simpl.
  destruct (_ <? 0); [done|]. destruct (MAX_SLEEP_MS <? _); [done|].
  destruct (os_sleeps _ _ _); [|done]. by intros [= <-].
Qed.

Lemma status_poll_count env mx w method :
  count_calls method (status_poll env mx w).2
  = (count_calls method w + if decide ("txpool_status" = method) then 1 else 0)%nat.
Proof.
  unfold status_poll, rpc_call.
  rewrite <- (count_calls_snoc method w "txpool_status" [] (sleeps w)).
  repeat case_match; simplify_eq; done.
Qed.

Lemma get_pending_basefee_wei_count env w method :
  count_calls method (get_pending_basefee_wei env w).2
  = (count_calls method w + if decide ("eth_getBlockByNumber" = method) then 1 else 0)%nat.
Proof.
  unfold get_pending_basefee_wei, rpc_call.
  rewrite <- (count_calls_snoc method w
                "eth_getBlockByNumber" [PStr "pending"; PBool false] (sleeps w)).
  repeat case_match; simplify_eq; done.
Qed.

Lemma status_loop_runs env cfg rounds : forall mx w,
  sleeps_accepted env (SLEEP_MS_MIN cfg) (SLEEP_MS_JITTER cfg) ->
  exists mx' w',
    status_loop env cfg rounds mx w = Ok (mx', w')
    /\ count_calls "txpool_status" w' = (count_calls "txpool_status" w + rounds)%nat
    /\ count_calls "txpool_inspect" w' = count_calls "txpool_inspect" w.
Proof.
  induction rounds as [|rounds IH]; intros mx w Hsa; simpl.
  - exists mx, w. split; [done|]. lia.
  - pose proof (status_poll_count env mx w "txpool_status") as Hs.
    pose proof (status_poll_count env mx w "txpool_inspect") as Hi.
    destruct (status_poll env mx w) as [mx1 w1]. simpl in Hs, Hi.
    destruct (sleep_briefly_ok env _ _ w1 Hsa) as [d Hsl]. rewrite Hsl. simpl.
    pose proof (sleep_briefly_count _ _ _ _ _ "txpool_status" Hsl) as Hs2.
    pose proof (sleep_briefly_count _ _ _ _ _ "txpool_inspect" Hsl) as Hi2.
    destruct (IH mx1 {| calls := calls w1; sleeps := sleeps w1 ++ [d] |} Hsa)
      as (mx' & w' & -> & Hs3 & Hi3).
    exists mx', w'. split; [done|].
    rewrite Hs3, Hi3, Hs2, Hi2, Hs, Hi.
    repeat case_decide; try done; lia.
Qed.

Lemma ingest_object insp st :
  is_dict insp = true -> exists st', ingest insp st = Ok st'.
Proof. destruct insp; try done. intros _. unfold ingest. simpl. eauto. Qed.

Lemma or_else_dict v :
  (truthy v = true -> is_dict v = true) -> is_dict (or_else v (PDict [])) = true.
Proof. unfold or_else. destruct (truthy v); auto. Qed.

Lemma inspect_loop_runs env cfg rounds : forall st w,
  sleeps_accepted env (SLEEP_MS_MIN cfg) (SLEEP_MS_JITTER cfg) ->
  inspect_replies_are_objects env ->
  exists st' w',
    inspect_loop env cfg rounds st w = Ok (st', w')
    /\ count_calls "txpool_inspect" w' = (count_calls "txpool_inspect" w + rounds)%nat
    /\ count_calls "txpool_status" w' = count_calls "txpool_status" w.
Proof.
  induction rounds as [|rounds IH]; intros st w Hsa Hobj; simpl.
  - exists st, w. split; [done|]. lia.
  - pose proof (get_pending_basefee_wei_count env w "txpool_status") as Hs.
    pose proof (get_pending_basefee_wei_count env w "txpool_inspect") as Hi.
    destruct (get_pending_basefee_wei env w) as [fee w1]. simpl in Hs, Hi.
    unfold rpc_call.
    pose proof (count_calls_snoc "txpool_status" w1 "txpool_inspect" [] (sleeps w1)) as Hs1.
    pose proof (count_calls_snoc "txpool_inspect" w1 "txpool_inspect" [] (sleeps w1)) as Hi1.
    set (w2 := {| calls := calls w1 ++ [("txpool_inspect", [])]; sleeps := sleeps w1 |}) in *.
    destruct (sleep_briefly_ok env _ _ w2 Hsa) as [d Hsl].
    pose proof (sleep_briefly_count _ _ _ _ _ "txpool_status" Hsl) as Hs2.
    pose proof (sleep_briefly_count _ _ _ _ _ "txpool_inspect" Hsl) as Hi2.
    assert (Hnext : forall st1, exists st' w',
      inspect_loop env cfg rounds st1 {| calls := calls w2; sleeps := sleeps w2 ++ [d] |}
      = Ok (st', w')
      /\ count_calls "txpool_inspect" w' = (count_calls "txpool_inspect" w + S rounds)%nat
      /\ count_calls "txpool_status" w' = count_calls "txpool_status" w).
    { intros st1. destruct (IH st1 {| calls := calls w2; sleeps := sleeps w2 ++ [d] |} Hsa Hobj)
        as (st' & w' & Hl & Hi3 & Hs3).
      exists st', w'. split; [done|].
      rewrite Hs3, Hi3, Hs2, Hi2, Hs1, Hi1, Hs, Hi. simpl.
      repeat case_decide; try done; lia. }
    destruct (answer env (length (calls w1)) "txpool_inspect" []) as [v|] eqn:Ha.
    + destruct (ingest_object (or_else v (PDict [])) st) as [st1 Hst1].
      { apply or_else_dict. by eapply Hobj. }
      rewrite Hst1. simpl. rewrite Hsl. simpl. apply Hnext.
    + rewrite Hsl. simpl. apply Hnext.
Qed.

(** C8, as stated, does not hold: with both budgets set to 0 one status poll
    and one inspect poll are made. *)
Lemma zero_budget_counterexample :
  exists mx w1 st w2,
    sample_status Scenario.quiet_node Scenario.zero_budget_config world0 = Ok (mx, w1)
    /\ collate Scenario.quiet_node Scenario.zero_budget_config w1 = Ok (st, w2)
    /\ count_calls "txpool_status" w2 = 1%nat
    /\ count_calls "txpool_inspect" w2 = 1%nat
    /\ SAMPLES Scenario.zero_budget_config = 0
    /\ INSPECT_HITS Scenario.zero_budget_config = 0.
Proof.
  do 4 eexists. split; [vm_compute; reflexivity|].
  split; [vm_compute; reflexivity|]. repeat split.
Qed.

(** C8, amended.  With sleep settings that [time.sleep] accepts (neither is
    negative, their sum is at most [MAX_SLEEP_MS], and the operating system
    carries out the sleeps) and a node whose [txpool_inspect] answers are
    objects, the status loop and the inspect loop both run to their end and
    make [max(1, SAMPLES)] status polls and [max(1, INSPECT_HITS)] inspect
    polls, whether the polls succeed or fail. *)
Theorem polls_match_budgets env cfg :
  sleeps_accepted env (SLEEP_MS_MIN cfg) (SLEEP_MS_JITTER cfg) ->
  inspect_replies_are_objects env ->
  exists mx w1 st w2,
    sample_status env cfg world0 = Ok (mx, w1)
    /\ collate env cfg w1 = Ok (st, w2)
    /\ count_calls "txpool_status" w2 = Z.to_nat (Z.max 1 (SAMPLES cfg))
    /\ count_calls "txpool_inspect" w2 = Z.to_nat (Z.max 1 (INSPECT_HITS cfg)).
Proof.
  intros Hsa Hobj. unfold sample_status, collate.
  destruct (status_loop_runs env cfg (Z.to_nat (Z.max 1 (SAMPLES cfg))) (0, 0) world0 Hsa)
    as (mx & w1 & Hs & Hs1 & Hi1).
  destruct (inspect_loop_runs env cfg (Z.to_nat (Z.max 1 (INSPECT_HITS cfg))) agg0 w1 Hsa Hobj)
    as (st & w2 & Hc & Hi2 & Hs2).
  exists mx, w1, st, w2. split; [done|]. split; [done|].
  rewrite Hs2, Hs1, Hi2, Hi1. done.
Qed.

(** The default settings against a node that fails every request: 30 status
    polls and 30 inspect polls. *)
Lemma polls_match_budgets_witness :
  exists mx w1 st w2,
    sample_status Scenario.dead_node Scenario.default_config world0 = Ok (mx, w1)
    /\ collate Scenario.dead_node Scenario.default_config w1 = Ok (st, w2)
    /\ count_calls "txpool_status" w2 = 30%nat
    /\ count_calls "txpool_inspect" w2 = 30%nat.
Proof.
  apply (polls_match_budgets Scenario.dead_node Scenario.default_config).
  - split; [simpl; lia|]. split; [simpl; lia|].
    split; [unfold MAX_SLEEP_MS; simpl; lia|]. intros k d _. reflexivity.
  - intros k params v Ha. discriminate Ha.
Defined.

End BudgetFacts.

(** ** The search loop *)

Section SearchFacts.

Import TxSearch.

Context (target_hashes target_addresses : list string).

#[local] Abbreviation targets := (list_to_set target_hashes : gset string).

#[local] Abbreviation within_targets := (within_targets target_hashes).

Lemma fold_until_preserves {X S : Type} (P : S -> Prop) (f : X -> S -> exc S) l :
  (forall x s s', P s -> f x s = Ok s' -> P s') ->
  forall s, P s -> P (fold_until f l s).1.
Proof.
  intros Hf. induction l as [|x l IH]; intros s Hs; simpl; [done|].
  destruct (f x s) as [s'|] eqn:E; [|done]. eauto.
Qed.

Lemma record_match_within h info st :
  within_targets st -> within_targets (record_match target_hashes target_addresses h info st).
Proof.
  unfold within_targets, record_match. simpl. intros Hst.
  case_bool_decide as Hh; [|done].
  rewrite dom_insert. apply union_least; [|done].
  apply singleton_subseteq_l. by apply elem_of_list_to_set.
Qed.

Lemma scan_entry_within p hit_num addr item st st' :
  within_targets st ->
  scan_entry target_hashes target_addresses p hit_num addr item st = Ok st' ->
  within_targets st'.
Proof.
  intros Hst. unfold scan_entry. destruct item as [nonce_str tx_data].
  destruct tx_data; try (by intros [= <-]).
  destruct (items_get "hash" kvs) as [h|]; [|by intros [= <-]].
  destruct (normalize_tx_hash_val h) as [tx_hash|]; [|done]. simpl.
  destruct (parse_nonce nonce_str) as [n|]; [|done]. simpl.
  intros [= <-]. by apply record_match_within.
Qed.

Lemma scan_sender_within p hit_num item acc :
  within_targets acc.1 ->
  within_targets (scan_sender target_hashes target_addresses p hit_num item acc).1.
Proof.
  destruct acc as [st failed]. simpl. intros Hst.
  destruct failed; [done|]. destruct item as [addr nonce_map].
  destruct nonce_map; try done.
  apply (fold_until_preserves within_targets); [|done].
  intros x s s' Hs. by apply scan_entry_within.
Qed.

Lemma scan_pool_within p hit_num insp st :
  within_targets st ->
  within_targets (scan_pool target_hashes target_addresses p hit_num insp st).1.
Proof.
  intros Hst. unfold scan_pool. destruct (get insp (pool_name p)) as [m|]; [|done].
  destruct (or_else m (PDict [])); try done.
  assert (Hgen : forall acc : state * bool, within_targets acc.1 ->
    within_targets
      (fold_left (fun acc item =>
                    scan_sender target_hashes target_addresses p hit_num item acc) kvs acc).1).
  { induction kvs as [|item kvs IH]; intros acc Hacc; simpl; [done|].
    apply IH. by apply scan_sender_within. }
  by apply Hgen.
Qed.

Lemma ingest_within hit_num insp st :
  within_targets st ->
  within_targets (ingest target_hashes target_addresses hit_num insp st).1.
Proof.
  intros Hst. unfold ingest.
  pose proof (scan_pool_within pending hit_num insp st Hst) as H1.
  destruct (scan_pool _ _ pending hit_num insp st) as [st1 failed]. simpl in H1.
  destruct failed; [done|]. by apply scan_pool_within.
Qed.

Lemma hit_within env hit_num st w :
  within_targets st ->
  within_targets (hit target_hashes target_addresses env hit_num st w).1.
Proof.
  intros Hst. unfold hit, rpc_call.
  destruct (answer env _ _ _) as [v|]; [|done].
  pose proof (ingest_within hit_num (or_else v (PDict []))
                (with_stats bump_successful (with_stats bump_total st)) Hst) as H1.
  destruct (ingest _ _ _ _ _) as [st1 failed]. simpl in *.
  by destruct failed.
Qed.

(** A list with a repeated element has more elements than its set. *)
Lemma size_list_to_set_le (l : list string) :
  (size (list_to_set l : gset string) <= length l)%nat
  /\ (~ NoDup l -> (size (list_to_set l : gset string) < length l)%nat).
Proof.
  induction l as [|x l [IHle IHlt]].
  - rewrite list_to_set_nil, size_empty. split; [done|].
    intros H. destruct H. constructor.
  - rewrite list_to_set_cons. cbn [length].
    destruct (decide (x ∈ l)) as [Hin|Hnin].
    + assert ({[x]} ∪ list_to_set l = (list_to_set l : gset string)) as ->.
      { apply subseteq_union_1_L, singleton_subseteq_l. by apply elem_of_list_to_set. }
      split; lia.
    + rewrite size_union by (rewrite disjoint_singleton_l, elem_of_list_to_set; done).
      rewrite size_singleton. split; [lia|].
      intros Hnd. assert (Hl : ~ NoDup l) by (intros ?; apply Hnd; by constructor).
      specialize (IHlt Hl). lia.
Qed.

Lemma all_found_duplicates st :
  ~ NoDup target_hashes -> within_targets st ->
  all_found target_hashes st = false.
Proof.
  intros Hnd Hst. unfold all_found.
  destruct target_hashes as [|h hs] eqn:E; [done|]. rewrite <- E in *.
  apply bool_decide_eq_false_2. intros Hsize.
  unfold TxSearch.within_targets in Hst.
  apply subseteq_size in Hst. rewrite size_dom in Hst.
  destruct (size_list_to_set_le target_hashes) as [_ Hlt]. specialize (Hlt Hnd). lia.
Qed.

Lemma hit_counts env hit_num st w :
  let '(st', w') := hit target_hashes target_addresses env hit_num st w in
  total_hits (search_stats st') = total_hits (search_stats st) + 1
  /\ count_calls "txpool_inspect" w' = S (count_calls "txpool_inspect" w).
Proof.
  unfold hit, rpc_call.
  pose proof (count_calls_snoc "txpool_inspect" w "txpool_inspect" [] (sleeps w)) as Hc.
  rewrite decide_True in Hc by done.
  assert (Hing : forall n v s,
    total_hits (search_stats (ingest target_hashes target_addresses n v s).1)
    = total_hits (search_stats s)).
  { intros n v s. unfold ingest.
    assert (Hpool : forall p s0,
      total_hits (search_stats (scan_pool target_hashes target_addresses p n v s0).1)
      = total_hits (search_stats s0)).
    { intros p s0. unfold scan_pool. destruct (get v (pool_name p)) as [m|]; [|done].
      destruct (or_else m (PDict [])); try done.
      assert (Hgen : forall acc : state * bool,
        total_hits (search_stats
          (fold_left (fun acc item =>
             scan_sender target_hashes target_addresses p n item acc) kvs acc).1)
        = total_hits (search_stats acc.1)).
      { induction kvs as [|item kvs IH]; intros acc; simpl; [done|].
        rewrite IH. destruct acc as [s1 failed]. simpl.
        destruct failed; [done|]. destruct item as [addr nonce_map].
        destruct nonce_map; try done.
        apply (fold_until_preserves
                 (fun s' => total_hits (search_stats s') = total_hits (search_stats s1)));
          [|done].
        intros [nonce_str tx_data] s2 s3 Hs2. unfold scan_entry.
        destruct tx_data; try (by intros [= <-]).
        destruct (items_get "hash" kvs1) as [h|]; [|by intros [= <-]].
        destruct (normalize_tx_hash_val h) as [tx_hash|]; [|done]. simpl.
        destruct (parse_nonce nonce_str) as [nn|]; [|done]. simpl.
        by intros [= <-]. }
      rewrite Hgen. simpl. by destruct p. }
    pose proof (Hpool pending s) as H1.
    destruct (scan_pool _ _ pending n v s) as [s1 failed]. simpl in H1.
    destruct failed; [done|]. by rewrite Hpool. }
  destruct (answer env _ _ _) as [v|].
  - specialize (Hing hit_num (or_else v (PDict []))
                  (with_stats bump_successful (with_stats bump_total st))).
    destruct (ingest _ _ _ _ _) as [st1 failed]. simpl in Hing.
    destruct failed; (split; [simpl; lia|rewrite Hc; lia]).
  - split; [simpl; lia|rewrite Hc; lia].
Qed.

(** When the exit test cannot succeed and the sleeps are valid, every round
    of the budget is made. *)
Lemma search_loop_full env sleep_min sleep_jitter hit_nums : forall st w,
  ~ NoDup target_hashes \/ target_hashes = [] ->
  within_targets st ->
  sleeps_accepted env sleep_min sleep_jitter ->
  exists st' w',
    search_loop target_hashes target_addresses env sleep_min sleep_jitter hit_nums st w
    = Ok (st', w')
    /\ within_targets st'
    /\ total_hits (search_stats st')
       = total_hits (search_stats st) + Z.of_nat (length hit_nums)
    /\ count_calls "txpool_inspect" w'
       = (count_calls "txpool_inspect" w + length hit_nums)%nat.
Proof.
  induction hit_nums as [|h hs IH]; intros st w Hno Hst Hsa; simpl.
  - exists st, w. repeat split; [done|lia|lia].
  - pose proof (hit_within env h st w Hst) as Hw.
    pose proof (hit_counts env h st w) as Hc.
    destruct (hit target_hashes target_addresses env h st w) as [st1 w1].
    simpl in Hw. destruct Hc as [Ht Hn].
    assert (all_found target_hashes st1 = false) as ->.
    { destruct Hno as [Hnd| ->]; [by apply all_found_duplicates|done]. }
    destruct (sleep_briefly_ok env sleep_min sleep_jitter w1 Hsa) as [d Hsl].
    rewrite Hsl. simpl.
    pose proof (sleep_briefly_count _ _ _ _ _ "txpool_inspect" Hsl) as Hn2.
    destruct (IH st1 {| calls := calls w1; sleeps := sleeps w1 ++ [d] |} Hno Hw Hsa)
      as (st' & w' & -> & Hw' & Ht' & Hn').
    exists st', w'. repeat split; [done|lia|lia].
Qed.

End SearchFacts.

(** ** Where the early exit works *)

Section EarlyExitFacts.

Import TxSearch.

(** With no repeated target hash the exit test says what its comment says:
    every target hash has a record. *)
Lemma all_found_no_duplicates target_hashes st :
  NoDup target_hashes -> within_targets target_hashes st ->
  all_found target_hashes st = true
  <-> target_hashes <> []
      /\ forall h, h ∈ target_hashes -> is_Some (found_transactions st !! h).
Proof.
  intros Hnd Hst. unfold all_found, within_targets in *.
  assert (Hsize : size (list_to_set target_hashes : gset string) = length target_hashes)
    by by apply size_list_to_set.
  assert (Hiff : size (found_transactions st) = length target_hashes
                 <-> forall h, h ∈ target_hashes -> is_Some (found_transactions st !! h)).
  { rewrite <- size_dom, <- Hsize. split.
    - intros Heq h Hh. apply elem_of_dom.
      rewrite (set_subseteq_size_eq _ _ Hst) by lia. by apply elem_of_list_to_set.
    - intros Hall. f_equal. apply (anti_symm (⊆)); [done|].
      intros h Hh%elem_of_list_to_set. by apply elem_of_dom, Hall. }
  destruct target_hashes as [|t ts] eqn:E.
  - split; [done|]. by intros [? _].
  - rewrite bool_decide_eq_true, Hiff. split; [by intros ?|by intros [_ ?]].
Qed.

(** A round after which the test holds is the last one: nothing is asked of
    the node after it, not even the sleep is taken. *)
Lemma search_loop_stop target_hashes target_addresses env sleep_min sleep_jitter
    hit_num rest st w :
  all_found target_hashes (hit target_hashes target_addresses env hit_num st w).1 = true ->
  search_loop target_hashes target_addresses env sleep_min sleep_jitter (hit_num :: rest) st w
  = Ok (hit target_hashes target_addresses env hit_num st w).
Proof.
  simpl. destruct (hit target_hashes target_addresses env hit_num st w) as [st1 w1].
  simpl. by intros ->.
Qed.

(** A round after which the test fails is followed by the sleep and the next
    round. *)
Lemma search_loop_continue target_hashes target_addresses env sleep_min sleep_jitter
    hit_num rest st w :
  all_found target_hashes (hit target_hashes target_addresses env hit_num st w).1 = false ->
  search_loop target_hashes target_addresses env sleep_min sleep_jitter (hit_num :: rest) st w
  = w' ← sleep_briefly env sleep_min sleep_jitter
           (hit target_hashes target_addresses env hit_num st w).2;
    search_loop target_hashes target_addresses env sleep_min sleep_jitter rest
      (hit target_hashes target_addresses env hit_num st w).1 w'.
Proof.
  simpl. destruct (hit target_hashes target_addresses env hit_num st w) as [st1 w1].
  simpl. by intros ->.
Qed.

(** A search by address only makes every round of its budget. *)
Lemma address_only_runs_full_budget env a :
  parse_tx_hashes (hashes a) = [] -> parse_tx_addresses (addresses a) <> [] ->
  sleeps_accepted env (sleep a) (jitter a) ->
  exists st w,
    search_transactions env a = Finished st w
    /\ total_hits (search_stats st) = Z.max 0 (hits a)
    /\ count_calls "txpool_inspect" w = Z.to_nat (hits a).
Proof.
  intros Hh Ha Hsa. unfold search_transactions. rewrite Hh.
  destruct (parse_tx_addresses (addresses a)) as [|addr addrs]; [done|].
  destruct (search_loop_full [] (addr :: addrs) env (sleep a) (jitter a)
              (range 1 (hits a + 1)) state0 world0)
    as (st & w & Hl & _ & Ht & Hc); [by right| |done|].
  { unfold within_targets. simpl. rewrite dom_empty. apply empty_subseteq. }
  rewrite Hl. exists st, w. rewrite length_range in Ht, Hc. simpl in Ht.
  split; [done|]. split; [lia|]. rewrite Hc. unfold count_calls. simpl. f_equal. lia.
Qed.

Lemma range_cons lo hi : lo < hi -> range lo hi = lo :: range (lo + 1) hi.
Proof.
  intros Hlt. unfold range.
  replace (Z.to_nat (hi - lo)) with (S (Z.to_nat (hi - (lo + 1)))) by lia.
  simpl. f_equal; [lia|]. rewrite <- fmap_S_seq, <- list_fmap_compose.
  apply list_fmap_ext. intros _ i _. simpl. lia.
Qed.

(** Targets [0xaaa] and [0xbbb]; round 1 shows [0xaaa], round 2 shows [0xbbb]:
    whatever the budget from 2 on, two rounds are made. *)
Lemma early_exit_two_targets n :
  2 <= n ->
  exists st w,
    search_transactions SearchScenario.node_a_then_b (SearchScenario.args_two_hits n)
    = Finished st w
    /\ total_hits (search_stats st) = 2
    /\ calls w = [("txpool_inspect", []); ("txpool_inspect", [])]
    /\ missing_hashes ["0xaaa"; "0xbbb"] st = [].
Proof.
  intros Hn. unfold search_transactions.
  change (parse_tx_hashes (hashes (SearchScenario.args_two_hits n)))
    with ["0xaaa"; "0xbbb"].
  change (parse_tx_addresses (addresses (SearchScenario.args_two_hits n)))
    with (@nil string).
  change (hits (SearchScenario.args_two_hits n)) with n.
  rewrite (range_cons 1) by lia. rewrite (range_cons (1 + 1)) by lia.
  rewrite search_loop_continue by (vm_compute; reflexivity).
  change (sleep (SearchScenario.args_two_hits n)) with 100.
  change (jitter (SearchScenario.args_two_hits n)) with 50.
  set (r1 := hit _ _ _ 1 state0 world0). vm_compute in r1. subst r1.
  set (s1 := sleep_briefly _ _ _ _). vm_compute in s1. subst s1.
  cbn [mbind exc_bind fst snd].
  rewrite search_loop_stop by (vm_compute; reflexivity).
  set (r2 := hit _ _ _ _ _ _). vm_compute in r2. subst r2.
  do 2 eexists. split; [reflexivity|]. repeat split.
Qed.

End EarlyExitFacts.

Section SearchClaims.

Import TxSearch.

(** C5: the code at an input on which it misses the early exit.
    [--hashes 0xaaa,0xaaa --hits 3], and the node shows [0xaaa] from the first
    round on: no target hash is missing after round 1, and three rounds are
    made. *)
Lemma duplicate_targets_miss_early_exit :
  exists st w,
    search_transactions SearchScenario.node_a SearchScenario.args_duplicate = Finished st w
    /\ missing_hashes (parse_tx_hashes (hashes SearchScenario.args_duplicate))
         (hit ["0xaaa"; "0xaaa"] [] SearchScenario.node_a 1 state0 world0).1 = []
    /\ total_hits (search_stats st) = 3
    /\ calls w = [("txpool_inspect", []); ("txpool_inspect", []); ("txpool_inspect", [])].
Proof.
  do 2 eexists. split; [vm_compute; reflexivity|]. repeat split.
Qed.

(** C6, as stated, does not hold: [0xaaa] is seen pending in hit 1 and queued
    in hit 2 while [0xbbb] is still looked for; after hit 2 its record says
    hit 2 and queued. *)
Lemma first_seen_counterexample :
  let run1 := ingest ["0xaaa"; "0xbbb"] [] 1 SearchScenario.snap_a state0 in
  let run2 := ingest ["0xaaa"; "0xbbb"] [] 2 SearchScenario.snap_a_queued run1.1 in
  (found_in_hit <$> found_transactions run1.1 !! "0xaaa" = Some 1
   /\ status <$> found_transactions run1.1 !! "0xaaa" = Some pending)
  /\ (found_in_hit <$> found_transactions run2.1 !! "0xaaa" = Some 2
      /\ status <$> found_transactions run2.1 !! "0xaaa" = Some queued)
  /\ all_found ["0xaaa"; "0xbbb"] run1.1 = false.
Proof. vm_compute. repeat split. Qed.

(** C6, amended.  Every observation of a target hash assigns its record:
    after a pool entry with a readable hash and nonce was scanned, the record
    of its hash is the one of this observation (status, sender, nonce, data
    and hit number), whatever was recorded before; the records of the other
    hashes are left as they were. *)
Theorem observation_replaces_record target_hashes target_addresses
    p hit_num addr nonce_str fields h n st :
  items_get "hash" fields = Some (PStr h) ->
  parse_nonce nonce_str = Ok n ->
  normalize_tx_hash h ∈ target_hashes ->
  exists st',
    scan_entry target_hashes target_addresses p hit_num addr (nonce_str, PDict fields) st
    = Ok st'
    /\ found_transactions st' !! normalize_tx_hash h
       = Some {| status := p; address := addr; nonce := n;
                 data := PDict fields; found_in_hit := hit_num |}
    /\ forall h', h' <> normalize_tx_hash h ->
         found_transactions st' !! h' = found_transactions st !! h'.
Proof.
  intros Hh Hn Hin. unfold scan_entry. rewrite Hh. simpl. rewrite Hn. simpl.
  eexists. split; [done|]. unfold record_match. simpl.
  rewrite bool_decide_eq_true_2 by done. split.
  - apply lookup_insert_eq.
  - intros h' Hne. by apply lookup_insert_ne.
Qed.

(** [0xaaa] was recorded in hit 1 as pending at nonce 7; seen queued in hit
    2, its record is the one of hit 2. *)
Lemma observation_replaces_record_witness :
  exists st',
    scan_entry ["0xaaa"; "0xbbb"] [] queued 2 "0x01" ("7", SearchScenario.tx "0xaaa")
      (ingest ["0xaaa"; "0xbbb"] [] 1 SearchScenario.snap_a state0).1
    = Ok st'
    /\ found_transactions st' !! "0xaaa"
       = Some {| status := queued; address := "0x01"; nonce := 7;
                 data := SearchScenario.tx "0xaaa"; found_in_hit := 2 |}.
Proof.
  destruct (observation_replaces_record ["0xaaa"; "0xbbb"] [] queued 2 "0x01" "7"
              [("hash", PStr "0xaaa")] "0xaaa" 7
              (ingest ["0xaaa"; "0xbbb"] [] 1 SearchScenario.snap_a state0).1)
    as (st' & Hs & Hf & _).
  - reflexivity.
  - reflexivity.
  - vm_compute. constructor.
  - exists st'. split; [exact Hs|exact Hf].
Defined.

(** C7: the code at an input on which it drops more than the offending
    entry.  Sender [0x01] has an entry with the unreadable nonce [zz] in
    front of the entry of the target [0xaaa]: the search tool ends the hit at
    the first entry, counts the hit as successful and as failed, and never
    finds [0xaaa]; the probe, on the same snapshot, skips the first entry and
    harvests nonce 7. *)
Lemma malformed_nonce_drops_rest_of_snapshot :
  (let r := ingest ["0xaaa"] [] 1 SearchScenario.snap_malformed state0 in
   r.2 = true /\ found_transactions r.1 !! "0xaaa" = None)
  /\ (exists st w,
        search_transactions SearchScenario.node_malformed SearchScenario.args_one
        = Finished st w
        /\ missing_hashes ["0xaaa"] st = ["0xaaa"]
        /\ search_stats st
           = {| total_hits := 2; successful_hits := 2; failed_hits := 2;
                pending_searches := 2; queued_searches := 0 |})
  /\ (exists st,
        Probe.ingest SearchScenario.snap_malformed Probe.agg0 = Ok st
        /\ Probe.pending_nonces st !! "0x01" = Some {[ 7 ]}).
Proof.
  split; [vm_compute; done|]. split.
  - do 2 eexists. split; [vm_compute; reflexivity|]. split; reflexivity.
  - eexists. split; [vm_compute; reflexivity|]. reflexivity.
Qed.

(** C1, as stated, does not hold for the search tool.  The record of a hash
    is the one of the last observation: a snapshot with [0xaaa] pending
    followed by one with [0xaaa] queued gives another record than the two
    snapshots taken the other way round.  The list of an address grows with
    every observation: the same snapshot ingested twice, under the same hit
    number, leaves two records where once leaves one. *)
Lemma search_ingest_counterexample :
  found_transactions
    (ingest_all ["0xaaa"] [] 1 [SearchScenario.snap_a; SearchScenario.snap_a_queued] state0)
  <> found_transactions
       (ingest_all ["0xaaa"] [] 1 [SearchScenario.snap_a_queued; SearchScenario.snap_a] state0)
  /\ found_by_address
       (ingest [] ["0x01"] 1 SearchScenario.snap_a
          (ingest [] ["0x01"] 1 SearchScenario.snap_a state0).1).1
     <> found_by_address (ingest [] ["0x01"] 1 SearchScenario.snap_a state0).1.
Proof.
  split.
  - intros H. apply (f_equal (fun m => status <$> m !! "0xaaa")) in H.
    vm_compute in H. discriminate H.
  - intros H. apply (f_equal (fun m => length <$> m !! "0x01")) in H.
    vm_compute in H. discriminate H.
Qed.

End SearchClaims.

(** ** Folds of a join *)

Section JoinFacts.

(** A fold of an associative, commutative and idempotent operation depends
    only on the set of elements folded. *)
Context {L : Type} (op : L -> L -> L).
Hypothesis op_assoc : forall a b c, op a (op b c) = op (op a b) c.
Hypothesis op_comm : forall a b, op a b = op b a.
Hypothesis op_idemp : forall a, op a a = a.

#[local] Abbreviation below a b := (op a b = b).

Lemma below_trans a b c : below a b -> below b c -> below a c.
Proof. intros Hab Hbc. by rewrite <- Hbc, op_assoc, Hab. Qed.

Lemma below_antisym a b : below a b -> below b a -> a = b.
Proof. intros Hab Hba. by rewrite <- Hba, op_comm at 1. Qed.

Lemma below_op_l a b : below a (op a b).
Proof. by rewrite op_assoc, op_idemp. Qed.

Lemma below_op_r a b : below b (op a b).
Proof. rewrite (op_comm a b). apply below_op_l. Qed.

Lemma below_lub a b c : below a c -> below b c -> below (op a b) c.
Proof. intros Ha Hb. by rewrite <- op_assoc, Hb, Ha. Qed.

Lemma fold_left_op_upper l : forall x,
  below x (fold_left op l x) /\ forall y, y ∈ l -> below y (fold_left op l x).
Proof.
  induction l as [|a l IH]; intros x; simpl.
  - split; [apply op_idemp|]. intros y Hy. by apply elem_of_nil in Hy.
  - destruct (IH (op x a)) as [Hx Hl]. split.
    + eapply below_trans; [apply below_op_l|exact Hx].
    + intros y [->|Hy]%elem_of_cons; [|by apply Hl].
      eapply below_trans; [apply below_op_r|exact Hx].
Qed.

Lemma fold_left_op_least l : forall x c,
  below x c -> (forall y, y ∈ l -> below y c) -> below (fold_left op l x) c.
Proof.
  induction l as [|a l IH]; intros x c Hx Hl; simpl; [done|].
  apply IH.
  - apply below_lub; [done|]. apply Hl. by left.
  - intros y Hy. apply Hl. by right.
Qed.

Lemma fold_left_op_same_elements l l' x :
  (forall y, y ∈ l <-> y ∈ l') -> fold_left op l x = fold_left op l' x.
Proof.
  intros Hll.
  destruct (fold_left_op_upper l x) as [Hx Hl].
  destruct (fold_left_op_upper l' x) as [Hx' Hl'].
  apply below_antisym.
  - apply fold_left_op_least; [done|]. intros y Hy. by apply Hl', Hll.
  - apply fold_left_op_least; [done|]. intros y Hy. by apply Hl, Hll.
Qed.

End JoinFacts.

(** ** The hashes and addresses found by the search are a union *)

Section FoundKeysFacts.

Import TxSearch.

Context (target_hashes target_addresses : list string).

#[local] Abbreviation record_match := (record_match target_hashes target_addresses).
#[local] Abbreviation scan_entry := (scan_entry target_hashes target_addresses).
#[local] Abbreviation scan_sender := (scan_sender target_hashes target_addresses).
#[local] Abbreviation scan_pool := (scan_pool target_hashes target_addresses).
#[local] Abbreviation ingest := (ingest target_hashes target_addresses).
#[local] Abbreviation ingest_all := (ingest_all target_hashes target_addresses).

(** [st] has the keys of [st'] and those of [d]. *)
#[local] Abbreviation ahead d st st' := (found_keys st = keys_union (found_keys st') d).

Lemma keys_union_assoc k1 k2 k3 :
  keys_union k1 (keys_union k2 k3) = keys_union (keys_union k1 k2) k3.
Proof. unfold keys_union. simpl. by rewrite !(assoc_L (∪)). Qed.

Lemma keys_union_comm k1 k2 : keys_union k1 k2 = keys_union k2 k1.
Proof. unfold keys_union. by rewrite (comm_L (∪) k1.1), (comm_L (∪) k1.2). Qed.

Lemma keys_union_idemp k : keys_union k k = k.
Proof. unfold keys_union. rewrite !(idemp_L (∪)). by destruct k. Qed.

Lemma record_match_ahead d h info info' st st' :
  address info = address info' ->
  ahead d st st' -> ahead d (record_match h info st) (record_match h info' st').
Proof.
  unfold found_keys, keys_union, TxSearch.record_match. simpl.
  intros <- [= Hh Ha]. f_equal.
  - case_bool_decide; [|done]. rewrite !dom_insert_L, Hh. by rewrite (assoc_L (∪)).
  - case_bool_decide; [|done]. rewrite !dom_insert_L, Ha. by rewrite (assoc_L (∪)).
Qed.

Lemma scan_entry_ahead d p p' n n' addr item st st' :
  ahead d st st' ->
  match scan_entry p n addr item st, scan_entry p' n' addr item st' with
  | Ok s, Ok s' => ahead d s s'
  | Raise, Raise => True
  | _, _ => False
  end.
Proof.
  intros Hst. unfold TxSearch.scan_entry. destruct item as [nonce_str tx_data].
  destruct tx_data; try done.
  destruct (items_get "hash" kvs) as [h|]; [|done].
  destruct (normalize_tx_hash_val h) as [tx_hash|]; [|done]. simpl.
  destruct (parse_nonce nonce_str) as [nn|]; [|done]. simpl.
  by apply record_match_ahead.
Qed.

Lemma fold_until_ahead d p p' n n' addr entries : forall st st',
  ahead d st st' ->
  ahead d (fold_until (scan_entry p n addr) entries st).1
          (fold_until (scan_entry p' n' addr) entries st').1
  /\ (fold_until (scan_entry p n addr) entries st).2
     = (fold_until (scan_entry p' n' addr) entries st').2.
Proof.
  induction entries as [|item entries IH]; intros st st' Hst; simpl; [done|].
  pose proof (scan_entry_ahead d p p' n n' addr item st st' Hst) as Hs.
  destruct (scan_entry p n addr item st) as [s|],
           (scan_entry p' n' addr item st') as [s'|]; try done.
  by apply IH.
Qed.

Lemma scan_sender_ahead d p p' n n' item acc acc' :
  ahead d acc.1 acc'.1 -> acc.2 = acc'.2 ->
  ahead d (scan_sender p n item acc).1 (scan_sender p' n' item acc').1
  /\ (scan_sender p n item acc).2 = (scan_sender p' n' item acc').2.
Proof.
  destruct acc as [st failed], acc' as [st' failed']. simpl. intros Hst <-.
  destruct failed; [done|]. destruct item as [addr nonce_map].
  destruct nonce_map; try done. by apply fold_until_ahead.
Qed.

Lemma scan_pool_ahead d p n n' insp st st' :
  ahead d st st' ->
  ahead d (scan_pool p n insp st).1 (scan_pool p n' insp st').1
  /\ (scan_pool p n insp st).2 = (scan_pool p n' insp st').2.
Proof.
  intros Hst. unfold TxSearch.scan_pool.
  destruct (get insp (pool_name p)) as [m|]; [|done].
  destruct (or_else m (PDict [])); try done.
  assert (Hgen : forall acc acc' : state * bool,
    ahead d acc.1 acc'.1 -> acc.2 = acc'.2 ->
    ahead d (fold_left (fun acc item => scan_sender p n item acc) kvs acc).1
            (fold_left (fun acc item => scan_sender p n' item acc) kvs acc').1
    /\ (fold_left (fun acc item => scan_sender p n item acc) kvs acc).2
       = (fold_left (fun acc item => scan_sender p n' item acc) kvs acc').2).
  { induction kvs as [|item kvs IH]; intros acc acc' Ha Hf; simpl; [done|].
    destruct (scan_sender_ahead d p p n n' item acc acc' Ha Hf). by apply IH. }
  by apply Hgen.
Qed.

Lemma ingest_ahead d n n' insp st st' :
  ahead d st st' -> ahead d (ingest n insp st).1 (ingest n' insp st').1.
Proof.
  intros Hst. unfold TxSearch.ingest.
  destruct (scan_pool_ahead d pending n n' insp st st' Hst) as [H1 Hf].
  destruct (scan_pool pending n insp st) as [s1 f1],
           (scan_pool pending n' insp st') as [s1' f1']. simpl in *. subst f1'.
  destruct f1; [done|]. by apply scan_pool_ahead.
Qed.

(** A snapshot adds the keys it adds to the empty state, whatever the state
    and the hit number. *)
Lemma ingest_found_keys n insp st :
  found_keys (ingest n insp st).1
  = keys_union (found_keys st) (found_keys (ingest 0 insp state0).1).
Proof.
  rewrite keys_union_comm. apply ingest_ahead.
  unfold found_keys, keys_union. simpl. by rewrite !dom_empty_L, !(left_id_L ∅ (∪)).
Qed.

Lemma ingest_all_found_keys snapshots : forall first st,
  found_keys (ingest_all first snapshots st)
  = fold_left keys_union
      (map (fun s => found_keys (ingest 0 s state0).1) snapshots) (found_keys st).
Proof.
  induction snapshots as [|s snapshots IH]; intros first st; simpl; [done|].
  by rewrite IH, ingest_found_keys.
Qed.

(** The hashes and the addresses found depend only on the set of snapshots
    ingested. *)
Lemma ingest_all_found_keys_same_elements l l' first first' st :
  (forall s, s ∈ l <-> s ∈ l') ->
  found_keys (ingest_all first l st) = found_keys (ingest_all first' l' st).
Proof.
  intros Hll. rewrite !ingest_all_found_keys.
  apply (fold_left_op_same_elements keys_union
           keys_union_assoc keys_union_comm keys_union_idemp).
  intros k. rewrite !list_elem_of_fmap.
  split; intros (s & -> & Hs); exists s; (split; [done|by apply Hll]).
Qed.

End FoundKeysFacts.

(** ** The aggregate of the probe is a join of what the snapshots bring *)

Section MergeFacts.

Import Probe.

Lemma merge_nonces_lookup m1 m2 a :
  merge_nonces m1 m2 !! a
  = match m1 !! a, m2 !! a with
    | Some s1, Some s2 => Some (s1 ∪ s2)
    | Some s1, None => Some s1
    | None, o => o
    end.
Proof.
  unfold merge_nonces. rewrite lookup_union_with.
  by destruct (m1 !! a), (m2 !! a).
Qed.

Lemma merge_nonces_assoc m1 m2 m3 :
  merge_nonces m1 (merge_nonces m2 m3) = merge_nonces (merge_nonces m1 m2) m3.
Proof.
  apply map_eq. intros a. rewrite !merge_nonces_lookup.
  destruct (m1 !! a), (m2 !! a), (m3 !! a); try done.
  by rewrite (assoc_L (∪)).
Qed.

Lemma merge_nonces_comm m1 m2 : merge_nonces m1 m2 = merge_nonces m2 m1.
Proof.
  apply map_eq. intros a. rewrite !merge_nonces_lookup.
  destruct (m1 !! a), (m2 !! a); try done.
  by rewrite (comm_L (∪)).
Qed.

Lemma merge_nonces_idemp m : merge_nonces m m = m.
Proof.
  apply map_eq. intros a. rewrite !merge_nonces_lookup.
  destruct (m !! a); [|done]. by rewrite (idemp_L (∪)).
Qed.

Lemma merge_nonces_empty_r m : merge_nonces m ∅ = m.
Proof.
  apply map_eq. intros a. rewrite !merge_nonces_lookup, lookup_empty.
  by destruct (m !! a).
Qed.

Lemma view_join_assoc v1 v2 v3 :
  view_join v1 (view_join v2 v3) = view_join (view_join v1 v2) v3.
Proof. unfold view_join. simpl. by rewrite merge_nonces_assoc, (assoc_L (∪)). Qed.

Lemma view_join_comm v1 v2 : view_join v1 v2 = view_join v2 v1.
Proof. unfold view_join. by rewrite merge_nonces_comm, (comm_L (∪)). Qed.

Lemma view_join_idemp v : view_join v v = v.
Proof. unfold view_join. rewrite merge_nonces_idemp, (idemp_L (∪)). by destruct v. Qed.

(** The probe skips the keys that do not parse and keeps all the others. *)
Lemma add_nonces_union keys : forall s,
  add_nonces keys s = s ∪ list_to_set (omap parse_nonce keys).
Proof.
  unfold add_nonces.
  induction keys as [|k keys IH]; intros s; simpl.
  - by rewrite (right_id_L ∅ (∪)).
  - rewrite IH. destruct (parse_nonce k) as [n|]; simpl; [|done].
    by rewrite (assoc_L (∪)).
Qed.

Lemma harvest_sender_merge pn item :
  harvest_sender pn item = merge_nonces pn (harvest_sender ∅ item).
Proof.
  unfold harvest_sender. rewrite lookup_empty. simpl.
  assert (Hgen : forall s0,
    <[lower item.1 := default ∅ (pn !! lower item.1) ∪ s0]> pn
    = merge_nonces pn (<[lower item.1 := s0]> ∅)).
  { intros s0. apply map_eq. intros a. rewrite merge_nonces_lookup.
    destruct (decide (lower item.1 = a)) as [<-|Hne].
    - rewrite !lookup_insert_eq. destruct (pn !! lower item.1); simpl; [done|].
      by rewrite (left_id_L ∅ (∪)).
    - rewrite !lookup_insert_ne, lookup_empty by done. by destruct (pn !! a). }
  destruct item.2; rewrite <- ?Hgen; try (by rewrite (right_id_L ∅ (∪))).
  f_equal. rewrite (add_nonces_union _ (default ∅ (pn !! lower item.1))).
  by rewrite (add_nonces_union _ ∅), (left_id_L ∅ (∪)).
Qed.

Lemma harvest_fold_merge senders : forall pn,
  fold_left harvest_sender senders pn
  = merge_nonces pn (fold_left harvest_sender senders ∅).
Proof.
  induction senders as [|item senders IH]; intros pn; simpl.
  - by rewrite merge_nonces_empty_r.
  - rewrite (IH (harvest_sender pn item)), (IH (harvest_sender ∅ item)).
    by rewrite harvest_sender_merge, merge_nonces_assoc.
Qed.

Lemma collect_entries_app (a : string) entries : forall qe,
  fold_left (fun qe (kv : string * pyval) =>
               match parse_nonce kv.1 with
               | Some n => qe ++ [(a, n, str kv.2)]
               | None => qe
               end) entries qe
  = qe ++ fold_left (fun qe (kv : string * pyval) =>
                       match parse_nonce kv.1 with
                       | Some n => qe ++ [(a, n, str kv.2)]
                       | None => qe
                       end) entries [].
Proof.
  induction entries as [|kv entries IH]; intros qe; simpl.
  - by rewrite app_nil_r.
  - destruct (parse_nonce kv.1) as [n|]; [|apply IH].
    rewrite (IH (qe ++ _)), (IH [_]). by rewrite <- app_assoc.
Qed.

Lemma collect_sender_app qe item :
  collect_sender qe item = qe ++ collect_sender [] item.
Proof.
  unfold collect_sender. destruct item.2; try (by rewrite app_nil_r).
  apply collect_entries_app.
Qed.

Lemma collect_fold_app senders : forall qe,
  fold_left collect_sender senders qe = qe ++ fold_left collect_sender senders [].
Proof.
  induction senders as [|item senders IH]; intros qe; simpl.
  - by rewrite app_nil_r.
  - rewrite (IH (collect_sender qe item)), (IH (collect_sender [] item)).
    by rewrite collect_sender_app, <- app_assoc.
Qed.

(** Ingesting a snapshot adds what the snapshot brings on its own, and fails
    exactly when the snapshot on its own does. *)
Lemma ingest_merge insp st :
  ingest insp st
  = match ingest insp agg0 with
    | Ok d =>
        Ok {| pending_nonces := merge_nonces (pending_nonces st) (pending_nonces d);
              queued_entries := queued_entries st ++ queued_entries d |}
    | Raise => Raise
    end.
Proof.
  unfold ingest. destruct (get insp "pending") as [pm|]; [|done]. simpl.
  destruct (get insp "queued") as [qm|]; [|done]. simpl. f_equal. f_equal.
  - destruct (or_else pm (PDict [])); try (by rewrite merge_nonces_empty_r).
    apply harvest_fold_merge.
  - destruct (or_else qm (PDict [])); try (by rewrite app_nil_r).
    apply collect_fold_app.
Qed.

Lemma ingest_view insp st st' :
  ingest insp st = Ok st' -> view_of st' = view_join (view_of st) (contribution insp).
Proof.
  rewrite ingest_merge. unfold contribution.
  destruct (ingest insp agg0) as [d|]; [|done]. intros [= <-].
  unfold view_of, view_join, unique_entries. simpl. by rewrite list_to_set_app_L.
Qed.

Lemma ingest_all_raise l : forall st,
  ingest_all l st = Raise <-> exists s, s ∈ l /\ ingest s agg0 = Raise.
Proof.
  induction l as [|s l IH]; intros st; simpl.
  - split; [done|]. intros (s & Hs & _). by apply elem_of_nil in Hs.
  - rewrite (ingest_merge s st).
    destruct (ingest s agg0) as [d|] eqn:Hd; simpl.
    + rewrite IH. split.
      * intros (s' & Hs' & Hr). exists s'. split; [by right|done].
      * intros (s' & [->|Hs']%elem_of_cons & Hr); [congruence|eauto].
    + split; [|done]. intros _. exists s. split; [by left|done].
Qed.

Lemma ingest_all_view l : forall st st',
  ingest_all l st = Ok st' ->
  view_of st' = fold_left view_join (map contribution l) (view_of st).
Proof.
  induction l as [|s l IH]; intros st st'; simpl.
  - by intros [= <-].
  - destruct (ingest s st) as [st1|] eqn:Hs; [|done]. simpl.
    intros Hl. rewrite (IH _ _ Hl). by rewrite (ingest_view _ _ _ Hs).
Qed.

(** Two sequences of snapshots with the same snapshots in them either both
    make the probe fail or give the same pending-nonce sets and the same set
    of distinct queued entries. *)
Lemma probe_ingest_same_elements (l l' : list pyval) (st : agg) :
  (forall s, s ∈ l <-> s ∈ l') ->
  match ingest_all l st, ingest_all l' st with
  | Ok a, Ok b =>
      pending_nonces a = pending_nonces b
      /\ unique_entries (queued_entries a) = unique_entries (queued_entries b)
  | Raise, Raise => True
  | _, _ => False
  end.
Proof.
  intros Hll.
  destruct (ingest_all l st) as [a|] eqn:Ha, (ingest_all l' st) as [b|] eqn:Hb.
  - apply ingest_all_view in Ha, Hb.
    assert (Hv : view_of a = view_of b).
    { rewrite Ha, Hb.
      apply (fold_left_op_same_elements view_join view_join_assoc view_join_comm view_join_idemp).
      intros v. rewrite !list_elem_of_fmap.
      split; intros (s & -> & Hs); exists s; (split; [done|by apply Hll]). }
    by injection Hv.
  - apply ingest_all_raise in Hb as (s & Hs & Hr).
    assert (ingest_all l st = Raise); [|congruence].
    apply ingest_all_raise. exists s. split; [by apply Hll|done].
  - apply ingest_all_raise in Ha as (s & Hs & Hr).
    assert (ingest_all l' st = Raise); [|congruence].
    apply ingest_all_raise. exists s. split; [by apply Hll|done].
  - done.
Qed.

End MergeFacts.

(** ** Ingestion, in both tools *)

Section IngestClaims.

(** C1, amended.  Ingestion is commutative and idempotent on what is a set:
    two sequences of snapshots with the same snapshots in them, in whatever
    order and however often, give the probe the same pending-nonce sets and
    the same set of distinct queued entries (or make it fail both), and give
    the search the same set of hashes found and the same set of addresses
    found, whatever the hit numbers. *)
Theorem ingest_commutative_idempotent (l l' : list pyval) :
  (forall s, s ∈ l <-> s ∈ l') ->
  (forall st,
     match Probe.ingest_all l st, Probe.ingest_all l' st with
     | Ok a, Ok b =>
         Probe.pending_nonces a = Probe.pending_nonces b
         /\ Probe.unique_entries (Probe.queued_entries a)
            = Probe.unique_entries (Probe.queued_entries b)
     | Raise, Raise => True
     | _, _ => False
     end)
  /\ (forall target_hashes target_addresses first first' st,
        TxSearch.found_keys
          (TxSearch.ingest_all target_hashes target_addresses first l st)
        = TxSearch.found_keys
            (TxSearch.ingest_all target_hashes target_addresses first' l' st)).
Proof.
  intros Hll. split.
  - intros st. by apply probe_ingest_same_elements.
  - intros. by apply ingest_all_found_keys_same_elements.
Qed.

(** Two snapshots, and the same two the other way round with one of them
    repeated: one aggregate for the probe, one set of hashes found for the
    search. *)
Lemma ingest_commutative_idempotent_witness :
  match Probe.ingest_all [SearchScenario.snap_a; SearchScenario.snap_b] Probe.agg0,
        Probe.ingest_all [SearchScenario.snap_b; SearchScenario.snap_a; SearchScenario.snap_b] Probe.agg0 with
  | Ok a, Ok b =>
      Probe.pending_nonces a = Probe.pending_nonces b
      /\ Probe.unique_entries (Probe.queued_entries a)
         = Probe.unique_entries (Probe.queued_entries b)
  | Raise, Raise => True
  | _, _ => False
  end
  /\ TxSearch.found_keys
       (TxSearch.ingest_all ["0xaaa"; "0xbbb"] ["0x01"] 1
          [SearchScenario.snap_a; SearchScenario.snap_b] TxSearch.state0)
     = TxSearch.found_keys
         (TxSearch.ingest_all ["0xaaa"; "0xbbb"] ["0x01"] 1
            [SearchScenario.snap_b; SearchScenario.snap_a; SearchScenario.snap_b] TxSearch.state0).
Proof.
  destruct (ingest_commutative_idempotent
              [SearchScenario.snap_a; SearchScenario.snap_b]
              [SearchScenario.snap_b; SearchScenario.snap_a; SearchScenario.snap_b]) as [Hprobe Hsearch].
  - intros s. rewrite !elem_of_cons, elem_of_nil. tauto.
  - split; [apply Hprobe|apply Hsearch].
Defined.

End IngestClaims.

(** * Further properties of the code *)

(** ** Normalization of hashes and addresses *)

Section StringFacts.

Import TxSearch.

Lemma code_range c : 0 <= code c < 256.
Proof. unfold code. pose proof (nat_ascii_bounded c). lia. Qed.

Lemma code_ascii_of_nat n : (n < 256)%nat -> code (ascii_of_nat n) = Z.of_nat n.
Proof. intros H. unfold code. by rewrite nat_ascii_embedding. Qed.

Lemma lower_char_code c :
  code (lower_char c) = if (65 <=? code c) && (code c <=? 90) then code c + 32 else code c.
Proof.
  unfold lower_char. destruct ((65 <=? code c) && (code c <=? 90)) eqn:E; [|done].
  rewrite code_ascii_of_nat; unfold code in *; lia.
Qed.

Lemma code_inj a b : code a = code b -> a = b.
Proof.
  unfold code. intros H. apply Nat2Z.inj in H.
  by rewrite <- (ascii_nat_embedding a), <- (ascii_nat_embedding b), H.
Qed.

Lemma lower_char_idemp c : lower_char (lower_char c) = lower_char c.
Proof.
  apply code_inj. rewrite !lower_char_code.
  repeat case_match; lia.
Qed.

Lemma is_space_lower_char c : is_space (lower_char c) = is_space c.
Proof. unfold is_space. rewrite lower_char_code. repeat case_match; lia. Qed.

#[local] Abbreviation lclean cs :=
  (match cs with c :: _ => is_space c = false | [] => True end).

Lemma lstrip_lclean cs : lclean (lstrip_chars cs).
Proof.
  induction cs as [|c cs IH]; simpl; [done|].
  destruct (is_space c) eqn:E; [done|]. done.
Qed.

Lemma lstrip_id cs : lclean cs -> lstrip_chars cs = cs.
Proof. destruct cs as [|c cs]; simpl; [done|]. by intros ->. Qed.

Lemma lstrip_split cs : exists sp, cs = sp ++ lstrip_chars cs.
Proof.
  induction cs as [|c cs [sp IH]]; simpl; [by exists []|].
  destruct (is_space c); [|by exists []].
  exists (c :: sp). simpl. by f_equal.
Qed.

Lemma lclean_prefix p t : lclean (p ++ t) -> lclean p.
Proof. by destruct p. Qed.

Lemma lclean_app p t : p <> [] -> lclean p -> lclean (p ++ t).
Proof. by destruct p. Qed.

Lemma strip_chars_lclean cs : lclean (strip_chars cs) /\ lclean (rev (strip_chars cs)).
Proof.
  unfold strip_chars. split.
  - destruct (lstrip_split (rev (lstrip_chars cs))) as [sp Hsp].
    apply (f_equal (@rev ascii)) in Hsp. rewrite rev_involutive, rev_app_distr in Hsp.
    pose proof (lstrip_lclean cs) as Hc. rewrite Hsp in Hc.
    by apply lclean_prefix in Hc.
  - rewrite rev_involutive. apply lstrip_lclean.
Qed.

Lemma strip_chars_id cs : lclean cs -> lclean (rev cs) -> strip_chars cs = cs.
Proof.
  intros H1 H2. unfold strip_chars.
  by rewrite (lstrip_id cs H1), (lstrip_id (rev cs) H2), rev_involutive.
Qed.

Lemma lclean_map_lower cs : lclean cs -> lclean (map lower_char cs).
Proof. destruct cs as [|c cs]; simpl; [done|]. by rewrite is_space_lower_char. Qed.

Lemma prefix_0x_chars u :
  String.prefix "0x" (string_of_list_ascii u) = true ->
  exists t, u = "0"%char :: "x"%char :: t.
Proof.
  destruct u as [|a [|b t]]; cbn [String.prefix string_of_list_ascii]; try done.
  - by destruct (ascii_dec "0" a).
  - destruct (ascii_dec "0" a) as [<-|]; [|done].
    destruct (ascii_dec "x" b) as [<-|]; [|done]. eauto.
Qed.

Lemma prefix_0x_intro t :
  String.prefix "0x" (string_of_list_ascii ("0"%char :: "x"%char :: t)) = true.
Proof.
  cbn [string_of_list_ascii String.prefix].
  destruct (ascii_dec "0" "0"); [|done]. destruct (ascii_dec "x" "x"); [|done].
  by destruct (string_of_list_ascii t).
Qed.

(** The characters of a normalized hash or address. *)
Lemma add_0x_lower_chars s :
  exists t,
    list_ascii_of_string (add_0x_lower s) = "0"%char :: "x"%char :: map lower_char t
    /\ lclean (rev ("0"%char :: "x"%char :: map lower_char t)).
Proof.
  unfold add_0x_lower, lower, strip, startswith.
  destruct (strip_chars_lclean (list_ascii_of_string s)) as [_ Hr].
  set (u := strip_chars (list_ascii_of_string s)) in *.
  assert (Hpre : forall t, lclean (rev t) -> lclean (rev ("0"%char :: "x"%char :: t))).
  { intros t Ht. simpl. rewrite <- app_assoc.
    destruct (rev t) as [|c r] eqn:E; [reflexivity|exact Ht]. }
  destruct (String.prefix "0x" (string_of_list_ascii u)) eqn:E.
  - apply prefix_0x_chars in E as [t Hu]. rewrite Hu in *.
    exists t. rewrite !list_ascii_of_string_of_list_ascii. split; [reflexivity|].
    change ("0"%char :: "x"%char :: map lower_char t)
      with (map lower_char ("0"%char :: "x"%char :: t)).
    rewrite <- map_rev. by apply lclean_map_lower.
  - exists u.
    change ("0x" +:+ string_of_list_ascii u)
      with (string_of_list_ascii ("0"%char :: "x"%char :: u)).
    rewrite !list_ascii_of_string_of_list_ascii.
    split; [reflexivity|].
    change ("0"%char :: "x"%char :: map lower_char u)
      with (map lower_char ("0"%char :: "x"%char :: u)).
    rewrite <- map_rev. apply lclean_map_lower. by apply Hpre.
Qed.

Lemma map_lower_idemp t : map lower_char (map lower_char t) = map lower_char t.
Proof. rewrite map_map. apply map_ext. intros c. apply lower_char_idemp. Qed.

Lemma string_chars_inj s1 s2 :
  list_ascii_of_string s1 = list_ascii_of_string s2 -> s1 = s2.
Proof.
  intros H. by rewrite <- (string_of_list_ascii_of_string s1),
                       <- (string_of_list_ascii_of_string s2), H.
Qed.

Lemma add_0x_lower_shape s :
  startswith "0x" (add_0x_lower s) = true
  /\ lower (add_0x_lower s) = add_0x_lower s
  /\ strip (add_0x_lower s) = add_0x_lower s.
Proof.
  destruct (add_0x_lower_chars s) as (t & Ht & Hclean).
  set (r := add_0x_lower s) in *.
  assert (Hr : r = string_of_list_ascii ("0"%char :: "x"%char :: map lower_char t)).
  { apply string_chars_inj. by rewrite Ht, list_ascii_of_string_of_list_ascii. }
  split; [|split].
  - rewrite Hr. apply prefix_0x_intro.
  - unfold lower. rewrite Ht.
    change ("0"%char :: "x"%char :: map lower_char t)
      with (map lower_char ("0"%char :: "x"%char :: t)).
    by rewrite map_lower_idemp.
  - unfold strip. rewrite Ht, strip_chars_id; [done|done|exact Hclean].
Qed.

Lemma add_0x_lower_idemp s : add_0x_lower (add_0x_lower s) = add_0x_lower s.
Proof.
  destruct (add_0x_lower_shape s) as (H1 & H2 & H3).
  unfold add_0x_lower at 1. by rewrite H3, H1, H2.
Qed.

(** X1.  Normalization is idempotent, for hashes and for addresses. *)
Theorem normalize_idempotent s :
  normalize_tx_hash (normalize_tx_hash s) = normalize_tx_hash s
  /\ normalize_address (normalize_address s) = normalize_address s.
Proof. split; apply add_0x_lower_idemp. Qed.

(** X2.  A normalized hash or address starts with [0x], has no upper-case
    letter and no blank at either end: it is left as it is by [startswith],
    [lower] and [strip]. *)
Theorem normalized_shape s r :
  r = normalize_tx_hash s \/ r = normalize_address s ->
  startswith "0x" r = true /\ lower r = r /\ strip r = r.
Proof. intros [-> | ->]; apply add_0x_lower_shape. Qed.

Lemma normalized_shape_witness :
  startswith "0x" "0xab" = true /\ lower "0xab" = "0xab" /\ strip "0xab" = "0xab".
Proof. apply (normalized_shape " AB " "0xab"). left. reflexivity. Defined.

End StringFacts.

Section PrefixFacts.

Import TxSearch.

Lemma lstrip_app_nonspace xs b t :
  is_space b = false -> lstrip_chars (xs ++ b :: t) = lstrip_chars xs ++ b :: t.
Proof.
  intros Hb. induction xs as [|x xs IH]; simpl; [by rewrite Hb|].
  by destruct (is_space x).
Qed.

Lemma strip_chars_two a b cs :
  is_space a = false -> is_space b = false ->
  strip_chars (a :: b :: cs) = a :: b :: rev (lstrip_chars (rev cs)).
Proof.
  intros Ha Hb. unfold strip_chars. cbn [lstrip_chars]. rewrite Ha.
  cbn [rev]. rewrite <- app_assoc. cbn [app].
  rewrite (lstrip_app_nonspace (rev cs) b [a] Hb).
  by rewrite rev_app_distr.
Qed.

Lemma add_0x_lower_upper_prefix s :
  add_0x_lower ("0X" +:+ s) = "0x" +:+ add_0x_lower ("0x" +:+ s)
  /\ add_0x_lower ("0X" +:+ s) <> add_0x_lower ("0x" +:+ s).
Proof.
  assert (Hx : add_0x_lower ("0x" +:+ s)
               = string_of_list_ascii
                   ("0"%char :: "x"%char
                    :: map lower_char (rev (lstrip_chars (rev (list_ascii_of_string s)))))).
  { unfold add_0x_lower, strip, lower, startswith.
    change (list_ascii_of_string ("0x" +:+ s))
      with ("0"%char :: "x"%char :: list_ascii_of_string s).
    rewrite strip_chars_two by reflexivity.
    rewrite prefix_0x_intro. by rewrite list_ascii_of_string_of_list_ascii. }
  assert (HX : add_0x_lower ("0X" +:+ s) = "0x" +:+ add_0x_lower ("0x" +:+ s)).
  { rewrite Hx. unfold add_0x_lower, strip, lower, startswith.
    change (list_ascii_of_string ("0X" +:+ s))
      with ("0"%char :: "X"%char :: list_ascii_of_string s).
    rewrite strip_chars_two by reflexivity.
    set (t := rev (lstrip_chars (rev (list_ascii_of_string s)))).
    assert (String.prefix "0x" (string_of_list_ascii ("0"%char :: "X"%char :: t)) = false)
      as ->.
    { cbn [string_of_list_ascii String.prefix].
      destruct (ascii_dec "0" "0"); [|done]. by destruct (ascii_dec "x" "X"). }
    change ("0x" +:+ string_of_list_ascii ("0"%char :: "X"%char :: t))
      with (string_of_list_ascii ("0"%char :: "x"%char :: "0"%char :: "X"%char :: t)).
    by rewrite list_ascii_of_string_of_list_ascii. }
  split; [done|]. rewrite HX. intros H.
  set (r := add_0x_lower ("0x" +:+ s)) in H.
  change ("0x" +:+ r) with (String "0" (String "x" r)) in H.
  apply (f_equal String.length) in H. cbn [String.length] in H. lia.
Qed.

(** X3.  The upper-case prefix [0X] is not recognised: a hash or address
    written with it gets a second prefix in front, and so never has the
    normal form of the same digits written with [0x]. *)
Theorem upper_case_prefix_doubled s :
  (normalize_tx_hash ("0X" +:+ s) = "0x" +:+ normalize_tx_hash ("0x" +:+ s)
   /\ normalize_tx_hash ("0X" +:+ s) <> normalize_tx_hash ("0x" +:+ s))
  /\ (normalize_address ("0X" +:+ s) = "0x" +:+ normalize_address ("0x" +:+ s)
      /\ normalize_address ("0X" +:+ s) <> normalize_address ("0x" +:+ s)).
Proof. split; apply add_0x_lower_upper_prefix. Qed.

Lemma filter_nil_iff {A} (P : A -> Prop) `{forall x, Decision (P x)} (l : list A) :
  filter P l = [] <-> Forall (fun x => ~ P x) l.
Proof.
  induction l as [|x l IH]; [by split; [constructor|]|].
  rewrite filter_cons. case_decide.
  - split; [done|]. by intros [? _]%Forall_cons.
  - rewrite IH, Forall_cons. split; [by split|by intros [_ ?]].
Qed.

Lemma parse_list_nil norm s :
  parse_list norm s = [] <-> Forall (fun p => strip p = "") (split_comma s).
Proof.
  unfold parse_list. destruct (String.eqb_spec s "") as [->|Hs].
  - split; [|done]. intros _. by repeat constructor.
  - assert (Hmap : forall l : list string, map norm l = [] <-> l = [])
      by (by intros [|? ?]).
    rewrite Hmap, filter_nil_iff, Forall_fmap.
    apply Forall_iff. intros p. simpl. split; [|by intros ->; intros []].
    intros Hp. by destruct (decide (strip p = "")).
Qed.

(** X4.  The run is refused as a usage error exactly when every
    comma-separated piece of [--hashes] and of [--addresses] is blank; no
    request is then made. *)
Theorem usage_error_iff_no_target env a :
  search_transactions env a = UsageError
  <-> Forall (fun p => strip p = "") (split_comma (hashes a))
      /\ Forall (fun p => strip p = "") (split_comma (addresses a)).
Proof.
  rewrite <- !(parse_list_nil normalize_tx_hash (hashes a)),
          <- !(parse_list_nil normalize_address (addresses a)).
  unfold search_transactions, parse_tx_hashes, parse_tx_addresses.
  destruct (parse_list normalize_tx_hash (hashes a)) as [|h hs],
           (parse_list normalize_address (addresses a)) as [|d ds];
    split; try done; try (by intros [? ?]);
    by destruct (search_loop _ _ _ _ _ _ _ _) as [[? ?]|].
Qed.

(** X5.  Every parsed target is in normal form: normalizing it again gives
    it back, and it starts with [0x]. *)
Theorem parsed_targets_normalized s h :
  h ∈ parse_tx_hashes s \/ h ∈ parse_tx_addresses s ->
  normalize_tx_hash h = h /\ normalize_address h = h /\ startswith "0x" h = true.
Proof.
  assert (Hgen : forall l, h ∈ map add_0x_lower l ->
    normalize_tx_hash h = h /\ normalize_address h = h /\ startswith "0x" h = true).
  { intros l (p & -> & _)%list_elem_of_fmap. split; [|split].
    - apply add_0x_lower_idemp.
    - apply add_0x_lower_idemp.
    - apply (add_0x_lower_shape p). }
  unfold parse_tx_hashes, parse_tx_addresses, parse_list.
  destruct (String.eqb s ""); [by intros [H|H]; apply elem_of_nil in H|].
  intros [H|H]; eapply Hgen, H.
Qed.

Lemma parsed_targets_normalized_witness :
  normalize_tx_hash "0xab" = "0xab" /\ normalize_address "0xab" = "0xab"
  /\ startswith "0x" "0xab" = true.
Proof.
  apply (parsed_targets_normalized " AB , 0Xcd" "0xab").
  left. vm_compute. constructor.
Defined.

End PrefixFacts.

(** ** What the search loop maintains *)

Section LoopFacts.

Import TxSearch SearchReport.

Context (target_hashes target_addresses : list string).

#[local] Abbreviation record_match := (record_match target_hashes target_addresses).
#[local] Abbreviation scan_entry := (scan_entry target_hashes target_addresses).
#[local] Abbreviation scan_sender := (scan_sender target_hashes target_addresses).
#[local] Abbreviation scan_pool := (scan_pool target_hashes target_addresses).
#[local] Abbreviation ingest := (ingest target_hashes target_addresses).
#[local] Abbreviation hit := (hit target_hashes target_addresses).
#[local] Abbreviation search_loop := (search_loop target_hashes target_addresses).
#[local] Abbreviation all_found := (all_found target_hashes).
#[local] Abbreviation within_targets := (within_targets target_hashes).

(** What a property of the state has to withstand to hold from hit to hit:
    a change of the counters, and the recording of a record built in the
    hit. *)
Lemma ingest_preserves (P : state -> Prop) n :
  (forall st f, P st -> P (with_stats f st)) ->
  (forall st h info, P st -> observed n h info -> P (record_match h info st)) ->
  forall insp st, P st -> P (ingest n insp st).1.
Proof.
  intros Hstats Hrec.
  assert (Hentry : forall p addr item st st',
    P st -> scan_entry p n (normalize_address addr) item st = Ok st' -> P st').
  { intros p addr [nonce_str tx_data] st st' Hst. unfold TxSearch.scan_entry.
    destruct tx_data; try (by intros [= <-]).
    destruct (items_get "hash" kvs) as [h|] eqn:Hh; [|by intros [= <-]].
    destruct h; try done. simpl.
    destruct (parse_nonce nonce_str) as [nn|] eqn:Hn; [|done]. simpl.
    intros [= <-]. apply Hrec; [done|].
    exists addr, nonce_str, kvs, s. by repeat split. }
  assert (Hsender : forall p item (acc : state * bool),
    P acc.1 -> P (scan_sender p n item acc).1).
  { intros p [addr nonce_map] [st failed] Hst. simpl in *.
    destruct failed; [done|]. destruct nonce_map; try done.
    apply (fold_until_preserves P); [|done]. intros x s s' Hs. by apply Hentry. }
  assert (Hpool : forall p insp st, P st -> P (scan_pool p n insp st).1).
  { intros p insp st Hst. unfold TxSearch.scan_pool.
    destruct (get insp (pool_name p)) as [m|]; [|done].
    destruct (or_else m (PDict [])); try done.
    assert (Hgen : forall acc : state * bool, P acc.1 ->
      P (fold_left (fun acc item => scan_sender p n item acc) kvs acc).1).
    { induction kvs as [|item kvs IH]; intros acc Hacc; simpl; [done|].
      by apply IH, Hsender. }
    apply Hgen. simpl. by apply Hstats. }
  intros insp st Hst. unfold TxSearch.ingest.
  pose proof (Hpool pending insp st Hst) as H1.
  destruct (scan_pool pending n insp st) as [st1 failed]. simpl in H1.
  destruct failed; [done|]. by apply Hpool.
Qed.

Lemma hit_preserves (P : state -> Prop) env n :
  (forall st f, P st -> P (with_stats f st)) ->
  (forall st h info, P st -> observed n h info -> P (record_match h info st)) ->
  forall st w, P st -> P (hit env n st w).1.
Proof.
  intros Hstats Hrec st w Hst. unfold TxSearch.hit, rpc_call.
  destruct (answer env _ _ _) as [v|]; [|by simpl; auto].
  pose proof (ingest_preserves P n Hstats Hrec (or_else v (PDict []))
                (with_stats bump_successful (with_stats bump_total st))) as Hi.
  destruct (ingest n _ _) as [st1 failed]. simpl in *.
  destruct failed; auto.
Qed.

Lemma search_loop_preserves (P : state -> Prop) env sleep_min sleep_jitter hit_nums :
  (forall n st w, P st -> P (hit env n st w).1) ->
  forall st w st' w',
    P st -> search_loop env sleep_min sleep_jitter hit_nums st w = Ok (st', w') -> P st'.
Proof.
  intros Hhit. induction hit_nums as [|n rest IH]; intros st w st' w' Hst; simpl.
  - by intros [= <- <-].
  - pose proof (Hhit n st w Hst) as H1.
    destruct (hit env n st w) as [st1 w1]. simpl in H1.
    destruct (all_found st1); [by intros [= <- <-]|].
    destruct (sleep_briefly env sleep_min sleep_jitter w1) as [w2|]; [|done]. simpl.
    by apply IH.
Qed.

(** The loop, when it returns: the rounds made, the requests issued, and the
    exit test after an early end. *)
Lemma search_loop_rounds env sleep_min sleep_jitter hit_nums : forall st w st' w',
  search_loop env sleep_min sleep_jitter hit_nums st w = Ok (st', w') ->
  exists k : nat,
    (k <= length hit_nums)%nat
    /\ total_hits (search_stats st') = total_hits (search_stats st) + Z.of_nat k
    /\ count_calls "txpool_inspect" w' = (count_calls "txpool_inspect" w + k)%nat
    /\ ((k < length hit_nums)%nat -> all_found st' = true).
Proof.
  induction hit_nums as [|n rest IH]; intros st w st' w'; simpl.
  - intros [= <- <-]. exists 0%nat. repeat split; lia.
  - pose proof (hit_counts target_hashes target_addresses env n st w) as Hc.
    destruct (hit env n st w) as [st1 w1]. destruct Hc as [Ht Hn].
    destruct (all_found st1) eqn:Hall.
    + intros [= <- <-]. exists 1%nat. repeat split; try lia. done.
    + destruct (sleep_briefly env sleep_min sleep_jitter w1) as [w2|] eqn:Hsl; [|done].
      simpl. intros Hl. apply IH in Hl as (k & Hk & Ht' & Hn' & Hall').
      pose proof (sleep_briefly_count _ _ _ _ _ "txpool_inspect" Hsl) as Hn2.
      exists (S k). repeat split; try lia. intros ?. apply Hall'. lia.
Qed.


Lemma within_targets_state0 : within_targets state0.
Proof. unfold TxSearch.within_targets. simpl. rewrite dom_empty. apply empty_subseteq. Qed.

Lemma search_loop_within env sleep_min sleep_jitter hit_nums st w st' w' :
  within_targets st ->
  search_loop env sleep_min sleep_jitter hit_nums st w = Ok (st', w') ->
  within_targets st'.
Proof.
  apply (search_loop_preserves within_targets). intros n s w0. apply hit_within.
Qed.

(** The exit test holds only when no target hash is missing. *)
Lemma all_found_missing st :
  within_targets st -> all_found st = true ->
  NoDup target_hashes /\ missing_hashes target_hashes st = [].
Proof.
  intros Hst Hall.
  destruct (decide (NoDup target_hashes)) as [Hnd|Hnd].
  - split; [done|].
    apply (all_found_no_duplicates _ _ Hnd Hst) in Hall as [_ Hall].
    unfold missing_hashes. apply filter_nil_iff, Forall_forall.
    intros h Hh%Hall Hn. rewrite Hn in Hh. by destruct Hh.
  - by rewrite (all_found_duplicates _ _ Hnd Hst) in Hall.
Qed.

End LoopFacts.

(** ** A repeated target hash *)

Section DuplicateTargets.

Import TxSearch.




End DuplicateTargets.

(** ** Runs of the search *)

Section RunFacts.

Import TxSearch SearchReport.

(** A run with a target is the loop over the hit numbers [1 .. hits]. *)
Lemma search_transactions_run env a :
  (parse_tx_hashes (hashes a) = [] /\ parse_tx_addresses (addresses a) = []
   /\ search_transactions env a = UsageError)
  \/ search_transactions env a
     = match search_loop (parse_tx_hashes (hashes a)) (parse_tx_addresses (addresses a))
               env (sleep a) (jitter a) (range 1 (hits a + 1)) state0 world0 with
       | Ok (st, w) => Finished st w
       | Raise => Crashed
       end.
Proof.
  unfold search_transactions.
  destruct (parse_tx_hashes (hashes a)), (parse_tx_addresses (addresses a)); auto.
Qed.

Lemma search_transactions_finished env a st w :
  search_transactions env a = Finished st w ->
  search_loop (parse_tx_hashes (hashes a)) (parse_tx_addresses (addresses a))
    env (sleep a) (jitter a) (range 1 (hits a + 1)) state0 world0 = Ok (st, w).
Proof.
  destruct (search_transactions_run env a) as [(_ & _ & ->)| ->]; [done|].
  destruct (search_loop _ _ _ _ _ _ _ _) as [[st' w']|]; [|done]. by intros [= -> ->].
Qed.

(** A refused sleep setting: whatever is drawn, the sleep raises. *)
Lemma sleep_briefly_refused env sleep_min sleep_jitter w :
  sleep_jitter < 0 \/ sleep_min + sleep_jitter < 0 \/ MAX_SLEEP_MS < sleep_min ->
  sleep_briefly env sleep_min sleep_jitter w = Raise.
Proof.
  intros H. unfold sleep_briefly, randint0.
  destruct (Z.ltb_spec sleep_jitter 0); [done|]. simpl.
  set (r := Z.max 0 (Z.min sleep_jitter (draw env (length (sleeps w))))).
  assert (Hr : 0 <= r <= sleep_jitter) by (unfold r; lia).
  destruct (Z.ltb_spec (sleep_min + r) 0); [done|].
  destruct (Z.ltb_spec MAX_SLEEP_MS (sleep_min + r)); [done|]. lia.
Qed.



(** X7.  With a sleep setting that [time.sleep] or [random.randint] refuses
    (a negative jitter, a negative longest sleep, a shortest sleep beyond
    [MAX_SLEEP_MS]) the search is aborted at its first sleep: it comes to
    its end only when it has no round to make or when its first round finds
    every target hash. *)
Theorem refused_sleep_stops_search env a st w :
  jitter a < 0 \/ sleep a + jitter a < 0 \/ MAX_SLEEP_MS < sleep a ->
  search_transactions env a = Finished st w ->
  (hits a <= 0 /\ st = state0 /\ w = world0)
  \/ (total_hits (search_stats st) = 1
      /\ all_found (parse_tx_hashes (hashes a)) st = true
      /\ sleeps w = []).
Proof.
  intros Href Hl%search_transactions_finished.
  destruct (decide (hits a <= 0)) as [Hle|Hgt].
  - left. split; [done|]. unfold range in Hl.
    replace (Z.to_nat (hits a + 1 - 1)) with 0%nat in Hl by lia.
    simpl in Hl. by injection Hl as <- <-.
  - right. rewrite (range_cons 1) in Hl by lia.
    cbn [search_loop] in Hl.
    pose proof (hit_counts (parse_tx_hashes (hashes a)) (parse_tx_addresses (addresses a))
                  env 1 state0 world0) as Ht.
    assert (Hs : sleeps (hit (parse_tx_hashes (hashes a)) (parse_tx_addresses (addresses a))
                           env 1 state0 world0).2 = []).
    { unfold hit, rpc_call. simpl. by repeat case_match. }
    destruct (hit _ _ env 1 state0 world0) as [st1 w1]. destruct Ht as [Ht _].
    simpl in Ht, Hs.
    destruct (all_found _ st1) eqn:Hall.
    + injection Hl as <- <-. split; [lia|done].
    + by rewrite sleep_briefly_refused in Hl.
Qed.

(** [--hashes 0xaaa --hits 2 --jitter -1] against a node that shows [0xaaa]:
    one round, ended by the exit test. *)
Lemma refused_sleep_stops_search_witness :
  exists st w,
    search_transactions SearchScenario.node_a MoreScenario.args_one_negative_jitter
    = Finished st w
    /\ total_hits (search_stats st) = 1.
Proof.
  do 2 eexists.
  assert (Hrun : search_transactions SearchScenario.node_a
                   MoreScenario.args_one_negative_jitter = Finished _ _)
    by (vm_compute; reflexivity).
  split; [exact Hrun|].
  assert (Href : jitter MoreScenario.args_one_negative_jitter < 0
                 \/ sleep MoreScenario.args_one_negative_jitter
                    + jitter MoreScenario.args_one_negative_jitter < 0
                 \/ MAX_SLEEP_MS < sleep MoreScenario.args_one_negative_jitter)
    by (left; reflexivity).
  destruct (refused_sleep_stops_search _ _ _ _ Href Hrun) as [(Hle & _)|(Ht & _)].
  - simpl in Hle. lia.
  - exact Ht.
Defined.

(** X8.  A run that comes to its end before its budget has ended on the exit
    test: no target hash is missing, and no target hash is repeated. *)
Theorem early_end_means_all_found env a st w :
  search_transactions env a = Finished st w ->
  total_hits (search_stats st) < hits a ->
  missing_hashes (parse_tx_hashes (hashes a)) st = []
  /\ NoDup (parse_tx_hashes (hashes a))
  /\ parse_tx_hashes (hashes a) <> [].
Proof.
  intros Hl%search_transactions_finished Hlt.
  pose proof (search_loop_within _ _ _ _ _ _ _ _ _ _ (within_targets_state0 _) Hl) as Hw.
  apply search_loop_rounds in Hl as (k & Hk & Ht & _ & Hall).
  rewrite length_range in Hk, Hall. simpl in Ht.
  assert (Hfound : all_found (parse_tx_hashes (hashes a)) st = true) by (apply Hall; lia).
  destruct (all_found_missing _ _ Hw Hfound) as [Hnd Hmiss].
  split; [done|]. split; [done|]. intros Hnil. unfold all_found in Hfound.
  by rewrite Hnil in Hfound.
Qed.

(** [--hashes 0xaaa,0xbbb --hits 5]; round 1 shows [0xaaa], round 2 shows
    [0xbbb]: the run ends after two rounds of five. *)
Lemma early_end_means_all_found_witness :
  exists st w,
    search_transactions SearchScenario.node_a_then_b (SearchScenario.args_two_hits 5)
    = Finished st w
    /\ missing_hashes ["0xaaa"; "0xbbb"] st = [].
Proof.
  do 2 eexists.
  assert (Hrun : search_transactions SearchScenario.node_a_then_b
                   (SearchScenario.args_two_hits 5) = Finished _ _)
    by (vm_compute; reflexivity).
  split; [exact Hrun|].
  apply (early_end_means_all_found _ _ _ _ Hrun). vm_compute. reflexivity.
Defined.

End RunFacts.

(** ** The records and the counters of the search *)

Section RecordFacts.

Import TxSearch SearchReport.

Context (target_hashes target_addresses : list string).

#[local] Abbreviation record_match := (record_match target_hashes target_addresses).
#[local] Abbreviation scan_entry := (scan_entry target_hashes target_addresses).
#[local] Abbreviation scan_sender := (scan_sender target_hashes target_addresses).
#[local] Abbreviation scan_pool := (scan_pool target_hashes target_addresses).
#[local] Abbreviation ingest := (ingest target_hashes target_addresses).
#[local] Abbreviation hit := (hit target_hashes target_addresses).
#[local] Abbreviation search_loop := (search_loop target_hashes target_addresses).

(** Scanning a pool changes the counters by at most the one count of the
    pool. *)
Lemma scan_entry_stats p n addr item st st' :
  scan_entry p n addr item st = Ok st' -> search_stats st' = search_stats st.
Proof.
  destruct item as [nonce_str tx_data]. unfold TxSearch.scan_entry.
  destruct tx_data; try (by intros [= <-]).
  destruct (items_get "hash" kvs) as [h|]; [|by intros [= <-]].
  destruct (normalize_tx_hash_val h) as [tx_hash|]; [|done]. simpl.
  destruct (parse_nonce nonce_str) as [nn|]; [|done]. simpl.
  by intros [= <-].
Qed.

Lemma scan_senders_stats p n senders : forall acc : state * bool,
  search_stats (fold_left (fun acc item => scan_sender p n item acc) senders acc).1
  = search_stats acc.1.
Proof.
  induction senders as [|item senders IH]; intros acc; simpl; [done|].
  rewrite IH. destruct acc as [st failed], item as [addr nonce_map]. simpl.
  destruct failed; [done|]. destruct nonce_map; try done.
  apply (fold_until_preserves (fun s => search_stats s = search_stats st)); [|done].
  intros x s s' Hs Hx. by rewrite (scan_entry_stats _ _ _ _ _ _ Hx).
Qed.

Lemma scan_pool_stats p n insp st :
  search_stats (scan_pool p n insp st).1 = search_stats st
  \/ search_stats (scan_pool p n insp st).1 = bump_searches p (search_stats st).
Proof.
  unfold TxSearch.scan_pool. destruct (get insp (pool_name p)) as [m|]; [|by left].
  destruct (or_else m (PDict [])); try (by left).
  right. by rewrite scan_senders_stats.
Qed.

Lemma ingest_stats n insp st :
  let s := search_stats st in
  let s' := search_stats (ingest n insp st).1 in
  total_hits s' = total_hits s
  /\ successful_hits s' = successful_hits s
  /\ failed_hits s' = failed_hits s
  /\ pending_searches s <= pending_searches s' <= pending_searches s + 1
  /\ queued_searches s <= queued_searches s' <= queued_searches s + 1.
Proof.
  unfold TxSearch.ingest.
  pose proof (scan_pool_stats pending n insp st) as H1.
  destruct (scan_pool pending n insp st) as [st1 failed]. simpl in H1.
  assert (Hfirst :
    total_hits (search_stats st1) = total_hits (search_stats st)
    /\ successful_hits (search_stats st1) = successful_hits (search_stats st)
    /\ failed_hits (search_stats st1) = failed_hits (search_stats st)
    /\ pending_searches (search_stats st) <= pending_searches (search_stats st1)
       <= pending_searches (search_stats st) + 1
    /\ queued_searches (search_stats st1) = queued_searches (search_stats st)).
  { destruct H1 as [-> | ->]; simpl; lia. }
  destruct failed; simpl; [lia|].
  pose proof (scan_pool_stats queued n insp st1) as H2.
  destruct (scan_pool queued n insp st1) as [st2 failed2]. simpl in *.
  destruct H2 as [-> | ->]; simpl; lia.
Qed.

Lemma hit_stats_consistent env n st w :
  stats_consistent (search_stats st) -> stats_consistent (search_stats (hit env n st w).1).
Proof.
  unfold stats_consistent, TxSearch.hit, rpc_call. intros Hst.
  destruct (answer env _ _ _) as [v|]; [|simpl; lia].
  pose proof (ingest_stats n (or_else v (PDict []))
                (with_stats bump_successful (with_stats bump_total st))) as Hi.
  destruct (ingest n _ _) as [st1 failed]. simpl in Hi.
  destruct failed; simpl; lia.
Qed.

(** A record built in a hit is filed where it belongs. *)
Lemma record_match_filed n h info st :
  records_filed target_hashes target_addresses st -> observed n h info ->
  records_filed target_hashes target_addresses (record_match h info st).
Proof.
  intros [Hh Ha] Hobs. unfold TxSearch.record_match. split; simpl.
  - intros h' info'. case_bool_decide as Hin; [|apply Hh].
    destruct (decide (h' = h)) as [->|Hne].
    + rewrite lookup_insert_eq. intros [= <-]. eauto.
    + rewrite lookup_insert_ne by done. apply Hh.
  - intros a infos info'. case_bool_decide as Hin; [|apply Ha].
    destruct (decide (a = address info)) as [->|Hne].
    + rewrite lookup_insert_eq. intros [= <-] [Hold| ->%list_elem_of_singleton]%elem_of_app.
      * destruct (found_by_address st !! address info) as [old|] eqn:E; simpl in Hold.
        -- by apply (Ha _ old).
        -- by apply elem_of_nil in Hold.
      * eauto.
    + rewrite lookup_insert_ne by done. apply Ha.
Qed.

(** What was recorded stays recorded. *)
Lemma record_match_extends st0 h info st :
  extends st0 st -> extends st0 (record_match h info st).
Proof.
  intros [Hh Ha]. unfold TxSearch.record_match. split; simpl.
  - case_bool_decide; [|done]. rewrite dom_insert. by apply union_subseteq_r'.
  - intros a infos Hlook. destruct (Ha a infos Hlook) as [more Hmore].
    case_bool_decide as Hin; [|eauto].
    destruct (decide (a = address info)) as [->|Hne].
    + rewrite lookup_insert_eq, Hmore. simpl. exists (more ++ [info]).
      by rewrite app_assoc.
    + rewrite lookup_insert_ne by done. eauto.
Qed.

Lemma extends_refl st : extends st st.
Proof.
  split; [done|]. intros a infos ->. exists []. by rewrite app_nil_r.
Qed.

(** The hashes that are not missing, counted. *)
Lemma length_filter_split {A} (P : A -> Prop) `{forall x, Decision (P x)} (l : list A) :
  (length (filter P l) + length (filter (fun x => ~ P x) l) = length l)%nat.
Proof.
  induction l as [|x l IH]; [done|].
  rewrite !filter_cons. destruct (decide (P x)), (decide (~ P x)); simpl; try lia; done.
Qed.

Lemma found_among_targets (st : state) :
  within_targets target_hashes st ->
  list_to_set (filter (fun h => ~ found_transactions st !! h = None) target_hashes)
  = dom (found_transactions st).
Proof.
  intros Hw. apply set_eq. intros h.
  rewrite elem_of_list_to_set, list_elem_of_filter, elem_of_dom, <- not_eq_None_Some.
  split; [by intros [? _]|]. intros Hh. split; [done|].
  apply (elem_of_list_to_set (C:=gset string)). apply Hw.
  by apply elem_of_dom, not_eq_None_Some.
Qed.

Lemma missing_count_le st :
  within_targets target_hashes st ->
  Z.of_nat (length (missing_hashes target_hashes st)) <= missing_count target_hashes st
  /\ (NoDup target_hashes ->
      missing_count target_hashes st = Z.of_nat (length (missing_hashes target_hashes st))).
Proof.
  intros Hw. unfold missing_count, missing_hashes.
  pose proof (length_filter_split (fun h => found_transactions st !! h = None) target_hashes)
    as Hsplit.
  pose proof (found_among_targets st Hw) as Hset.
  pose proof (size_list_to_set_le
                (filter (fun h => ~ found_transactions st !! h = None) target_hashes))
    as [Hle _].
  rewrite Hset, size_dom in Hle.
  destruct target_hashes as [|t ts] eqn:E; [done|]. rewrite <- E in *. split; [lia|].
  intros Hnd.
  assert (size (found_transactions st)
          = length (filter (fun h => ~ found_transactions st !! h = None) target_hashes)).
  { rewrite <- size_dom, <- Hset. apply size_list_to_set. by apply NoDup_filter. }
  lia.
Qed.

End RecordFacts.

Section ReportFacts.

Import TxSearch SearchReport.

(** X9.  The counters of the report fit together: a hit is counted as
    successful, as failed, or as both (its request succeeded and the scan of
    the answer raised); the pools are searched only in successful hits. *)
Theorem stats_stay_consistent env a st w :
  search_transactions env a = Finished st w ->
  stats_consistent (search_stats st).
Proof.
  intros Hl%search_transactions_finished.
  apply (search_loop_preserves _ _ (fun s => stats_consistent (search_stats s))
           env _ _ _ (fun n s w0 => hit_stats_consistent _ _ env n s w0) _ _ _ _) in Hl;
    [done|].
  unfold stats_consistent. simpl. lia.
Qed.

(** The unreadable nonce of [snap_malformed]: both hits are successful and
    failed. *)
Lemma stats_stay_consistent_witness :
  exists st w,
    search_transactions SearchScenario.node_malformed SearchScenario.args_one = Finished st w
    /\ stats_consistent (search_stats st)
    /\ successful_hits (search_stats st) + failed_hits (search_stats st) = 4.
Proof.
  do 2 eexists.
  assert (Hrun : search_transactions SearchScenario.node_malformed SearchScenario.args_one
                 = Finished _ _) by (vm_compute; reflexivity).
  split; [exact Hrun|]. split; [|reflexivity].
  exact (stats_stay_consistent _ _ _ _ Hrun).
Defined.

(** X10.  Every record of the report is filed where it belongs: a record
    under a hash is under a target hash, which is the normalized hash of the
    record's own data; a record in the list of an address is in the list of
    a target address, which is the normalized sender it was seen under. *)
Theorem records_are_filed env a st w :
  search_transactions env a = Finished st w ->
  records_filed (parse_tx_hashes (hashes a)) (parse_tx_addresses (addresses a)) st.
Proof.
  intros Hl%search_transactions_finished.
  apply (search_loop_preserves _ _
           (records_filed (parse_tx_hashes (hashes a)) (parse_tx_addresses (addresses a)))
           env _ _ _) in Hl; [done| |].
  - intros n s w0. apply hit_preserves; [done|]. intros s0 h info. apply record_match_filed.
  - split; simpl; intros ?; intros; by rewrite lookup_empty in *.
Qed.

Lemma records_are_filed_witness :
  exists st w,
    search_transactions SearchScenario.node_a SearchScenario.args_one = Finished st w
    /\ records_filed ["0xaaa"] [] st.
Proof.
  do 2 eexists.
  assert (Hrun : search_transactions SearchScenario.node_a SearchScenario.args_one
                 = Finished _ _) by (vm_compute; reflexivity).
  split; [exact Hrun|]. exact (records_are_filed _ _ _ _ Hrun).
Defined.

(** X11.  A hit loses nothing: a hash that has a record keeps one (the
    record itself may be replaced), and the list of an address only grows
    at its end. *)
Theorem hit_extends target_hashes target_addresses env n st w :
  extends st (hit target_hashes target_addresses env n st w).1.
Proof.
  apply (hit_preserves _ _ (extends st)); [done| |apply extends_refl].
  intros s h info Hs _. by apply record_match_extends.
Qed.

(** X12.  The [missing_count] of the JSON summary against the
    [missing_hashes] it lists: the count is never below the length of the
    list, and equals it when no target hash is repeated. *)
Theorem missing_count_matches_list env a st w :
  search_transactions env a = Finished st w ->
  Z.of_nat (length (missing_hashes (parse_tx_hashes (hashes a)) st))
  <= missing_count (parse_tx_hashes (hashes a)) st
  /\ (NoDup (parse_tx_hashes (hashes a)) ->
      missing_count (parse_tx_hashes (hashes a)) st
      = Z.of_nat (length (missing_hashes (parse_tx_hashes (hashes a)) st))).
Proof.
  intros Hl%search_transactions_finished. apply missing_count_le.
  exact (search_loop_within _ _ _ _ _ _ _ _ _ _ (within_targets_state0 _) Hl).
Qed.

(** [--hashes 0xaaa,0xaaa]: [0xaaa] is found, nothing is listed as missing,
    and the count of the missing hashes is 1. *)
Lemma missing_count_matches_list_witness :
  exists st w,
    search_transactions SearchScenario.node_a SearchScenario.args_duplicate = Finished st w
    /\ Z.of_nat (length (missing_hashes ["0xaaa"; "0xaaa"] st))
       <= missing_count ["0xaaa"; "0xaaa"] st
    /\ missing_hashes ["0xaaa"; "0xaaa"] st = []
    /\ missing_count ["0xaaa"; "0xaaa"] st = 1.
Proof.
  do 2 eexists.
  assert (Hrun : search_transactions SearchScenario.node_a SearchScenario.args_duplicate
                 = Finished _ _) by (vm_compute; reflexivity).
  split; [exact Hrun|].
  destruct (missing_count_matches_list _ _ _ _ Hrun) as [Hle _].
  split; [exact Hle|]. split; reflexivity.
Defined.

End ReportFacts.

(** ** The hit numbers of the records *)

Section DateFacts.

Import TxSearch SearchReport.

Context (target_hashes target_addresses : list string).

#[local] Abbreviation record_match := (record_match target_hashes target_addresses).
#[local] Abbreviation hit := (hit target_hashes target_addresses).
#[local] Abbreviation search_loop := (search_loop target_hashes target_addresses).

Lemma records_dated_mono k n st : k <= n -> records_dated k st -> records_dated n st.
Proof.
  intros Hkn [Hh Ha]. split.
  - intros h info Hl. specialize (Hh h info Hl). lia.
  - intros a infos Hl. destruct (Ha a infos Hl) as [Hall Hord]. split; [|done].
    eapply Forall_impl; [exact Hall|]. simpl. intros. lia.
Qed.

Lemma record_match_dated n h info st :
  1 <= n -> records_dated n st -> observed n h info ->
  records_dated n (record_match h info st).
Proof.
  intros Hn [Hh Ha] (_ & _ & _ & _ & _ & _ & _ & _ & _ & Hhit).
  unfold TxSearch.record_match. split; simpl.
  - intros h' info'. case_bool_decide; [|apply Hh].
    destruct (decide (h' = h)) as [->|Hne].
    + rewrite lookup_insert_eq. intros [= <-]. lia.
    + rewrite lookup_insert_ne by done. apply Hh.
  - intros a infos. case_bool_decide; [|apply Ha].
    destruct (decide (a = address info)) as [->|Hne].
    + rewrite lookup_insert_eq. intros [= <-].
      assert (Hold : Forall (fun i => 1 <= found_in_hit i <= n)
                       (default [] (found_by_address st !! address info))
                     /\ forall i j x y,
                          default [] (found_by_address st !! address info) !! i = Some x ->
                          default [] (found_by_address st !! address info) !! j = Some y ->
                          (i <= j)%nat -> found_in_hit x <= found_in_hit y).
      { destruct (found_by_address st !! address info) as [old|] eqn:E; simpl.
        - exact (Ha _ _ E).
        - split; [constructor|]. intros i j x y Hi. by rewrite lookup_nil in Hi. }
      destruct Hold as [Hall Hord].
      set (old := default [] (found_by_address st !! address info)) in *.
      split.
      * apply Forall_app. split; [done|]. constructor; [lia|constructor].
      * intros i j x y Hi Hj Hij.
        apply lookup_app_Some in Hj as [Hj|[Hlen Hj]].
        -- apply lookup_app_Some in Hi as [Hi|[Hlen Hi]]; [by eapply Hord|].
           apply lookup_lt_Some in Hj. lia.
        -- apply list_lookup_singleton_Some in Hj as [_ <-].
           apply lookup_app_Some in Hi as [Hi|[_ Hi]].
           ++ rewrite Forall_forall in Hall.
              apply list_elem_of_lookup_2 in Hi. specialize (Hall _ Hi). lia.
           ++ apply list_lookup_singleton_Some in Hi as [_ <-]. lia.
    + rewrite lookup_insert_ne by done. apply Ha.
Qed.

Lemma hit_dated env n st w :
  1 <= n -> records_dated n st -> records_dated n (hit env n st w).1.
Proof.
  intros Hn. apply hit_preserves; [done|].
  intros s h info. by apply record_match_dated.
Qed.

Lemma search_loop_dated env sleep_min sleep_jitter (len : nat) : forall lo st w st' w',
  1 <= lo ->
  search_loop env sleep_min sleep_jitter (range lo (lo + Z.of_nat len)) st w = Ok (st', w') ->
  records_dated (lo - 1) st -> total_hits (search_stats st) = lo - 1 ->
  records_dated (total_hits (search_stats st')) st'.
Proof.
  induction len as [|len IH]; intros lo st w st' w' Hlo.
  - unfold range. replace (Z.to_nat (lo + Z.of_nat 0 - lo)) with 0%nat by lia. simpl.
    intros [= <- <-] Hd Ht. by rewrite Ht.
  - rewrite range_cons by lia. cbn [TxSearch.search_loop].
    replace (lo + Z.of_nat (S len)) with (lo + 1 + Z.of_nat len) by lia.
    intros Hl Hd Ht.
    pose proof (hit_counts target_hashes target_addresses env lo st w) as Hc.
    pose proof (hit_dated env lo st w Hlo (records_dated_mono (lo - 1) lo st ltac:(lia) Hd)) as Hd1.
    destruct (hit env lo st w) as [st1 w1]. destruct Hc as [Hc _]. simpl in Hd1.
    destruct (all_found target_hashes st1).
    + injection Hl as <- <-. by replace (total_hits (search_stats st1)) with lo by lia.
    + destruct (sleep_briefly env sleep_min sleep_jitter w1) as [w2|]; [|done]. simpl in Hl.
      apply (IH (lo + 1) st1 w2 st' w'); [lia|done| |lia].
      by replace (lo + 1 - 1) with lo by lia.
Qed.

End DateFacts.

Section HitNumberFacts.

Import TxSearch SearchReport.

(** X13.  The hit numbers of the report: every record was found in one of
    the hits that were made, and the records of an address are listed hit
    after hit. *)
Theorem records_are_dated env a st w :
  search_transactions env a = Finished st w ->
  records_dated (total_hits (search_stats st)) st.
Proof.
  intros Hl%search_transactions_finished.
  assert (Hr : range 1 (hits a + 1) = range 1 (1 + Z.of_nat (Z.to_nat (hits a))))
    by (unfold range; do 2 f_equal; lia).
  rewrite Hr in Hl.
  eapply search_loop_dated in Hl; [exact Hl|lia| |done].
  split; simpl; intros ?; intros; by rewrite lookup_empty in *.
Qed.

(** [--addresses 0x01 --hits 3] against a node that shows a transaction of
    [0x01] in every round. *)
Lemma records_are_dated_witness :
  exists st w,
    search_transactions SearchScenario.node_a MoreScenario.args_address = Finished st w
    /\ records_dated 3 st
    /\ (map found_in_hit <$> found_by_address st !! "0x01") = Some [1; 2; 3].
Proof.
  do 2 eexists.
  assert (Hrun : search_transactions SearchScenario.node_a MoreScenario.args_address
                 = Finished _ _) by (vm_compute; reflexivity).
  split; [exact Hrun|]. split; [|reflexivity].
  exact (records_are_dated _ _ _ _ Hrun).
Defined.

End HitNumberFacts.

(** ** Runs of the probe *)

Section ProbeFacts.

Import Probe.

#[local] Abbreviation counted m :=
  (default 0 (m !! "nonce_gap") + default 0 (m !! "below_floor")
   + default 0 (m !! "under_basefee") + default 0 (m !! "unknown")).

Lemma budget_succ b : exists n, Z.to_nat (Z.max 1 b) = S n.
Proof. exists (Z.to_nat (Z.max 1 b) - 1)%nat. lia. Qed.

(** X14.  With a sleep setting that [time.sleep] or [random.randint]
    refuses (a negative jitter, a negative longest sleep, a shortest sleep
    beyond [MAX_SLEEP_MS]) the probe is aborted at the sleep that follows
    its first status poll: no report is made. *)
Theorem refused_sleep_aborts_probe env cfg :
  SLEEP_MS_JITTER cfg < 0 \/ SLEEP_MS_MIN cfg + SLEEP_MS_JITTER cfg < 0
  \/ MAX_SLEEP_MS < SLEEP_MS_MIN cfg ->
  sample_status env cfg world0 = Raise /\ analyze env cfg = Raise.
Proof.
  intros Href.
  assert (Hs : sample_status env cfg world0 = Raise).
  { unfold sample_status. destruct (budget_succ (SAMPLES cfg)) as [n ->]. simpl.
    destruct (status_poll env (0, 0) world0) as [mx w].
    by rewrite sleep_briefly_refused. }
  split; [done|]. unfold analyze. by rewrite Hs.
Qed.

(** [SLEEP_MS_MIN=10000000000000000] *)
Lemma refused_sleep_aborts_probe_witness :
  analyze Scenario.quiet_node MoreScenario.oversleeping_config = Raise.
Proof.
  apply (refused_sleep_aborts_probe Scenario.quiet_node MoreScenario.oversleeping_config).
  right. right. reflexivity.
Defined.

Lemma get_pending_basefee_wei_world env w :
  (get_pending_basefee_wei env w).2
  = {| calls := calls w ++ [("eth_getBlockByNumber", [PStr "pending"; PBool false])];
       sleeps := sleeps w |}.
Proof. unfold get_pending_basefee_wei, rpc_call. by repeat case_match. Qed.

(** X15.  A [txpool_inspect] result that is neither an object nor replaced
    by [or {}] aborts the probe: [insp.get] is outside the [try].  The
    request for the snapshot is the second of a round, after the one for
    the base fee. *)
Theorem non_object_snapshot_aborts_probe env cfg w v :
  answer env (S (length (calls w))) "txpool_inspect" [] = Result v ->
  truthy v = true -> is_dict v = false ->
  collate env cfg w = Raise.
Proof.
  intros Ha Ht Hd. unfold collate. destruct (budget_succ (INSPECT_HITS cfg)) as [n ->].
  cbn [inspect_loop].
  pose proof (get_pending_basefee_wei_world env w) as Hw.
  destruct (get_pending_basefee_wei env w) as [fee w1]. simpl in Hw. subst w1.
  unfold rpc_call. cbn [calls]. rewrite length_app. cbn [length].
  replace (length (calls w) + 1)%nat with (S (length (calls w))) by lia.
  rewrite Ha. unfold or_else. rewrite Ht. unfold ingest.
  by destruct v.
Qed.

Lemma non_object_snapshot_aborts_probe_witness :
  collate MoreScenario.node_of_lists Scenario.default_config world0 = Raise.
Proof.
  apply (non_object_snapshot_aborts_probe MoreScenario.node_of_lists
           Scenario.default_config world0 (PList [PInt 1])); reflexivity.
Defined.

Lemma status_poll_maxima env mx w :
  mx.1 <= (status_poll env mx w).1.1 /\ mx.2 <= (status_poll env mx w).1.2.
Proof.
  unfold status_poll, rpc_call. destruct (answer env _ _ _) as [v|]; [|simpl; lia].
  destruct (_ ≫= _) as [[p q]|]; simpl; [|lia].
  destruct (Z.ltb_spec mx.1 p), (Z.ltb_spec mx.2 q); simpl; lia.
Qed.

Lemma status_loop_maxima env cfg rounds : forall mx w mx' w',
  status_loop env cfg rounds mx w = Ok (mx', w') -> mx.1 <= mx'.1 /\ mx.2 <= mx'.2.
Proof.
  induction rounds as [|rounds IH]; intros mx w mx' w'; simpl.
  - intros [= <- <-]. lia.
  - pose proof (status_poll_maxima env mx w) as Hp.
    destruct (status_poll env mx w) as [mx1 w1]. simpl in Hp.
    destruct (sleep_briefly _ _ _ w1) as [w2|]; [|done]. simpl.
    intros Hl%IH. lia.
Qed.

(** X16.  The maxima of the report are never negative, whatever sizes the
    node reports. *)
Theorem maxima_never_negative env cfg mx w :
  sample_status env cfg world0 = Ok (mx, w) -> 0 <= mx.1 /\ 0 <= mx.2.
Proof. intros H%status_loop_maxima. simpl in H. done. Qed.

(** A node that reports -5 pending and -7 queued transactions. *)
Lemma maxima_never_negative_witness :
  exists mx w,
    sample_status MoreScenario.node_of_negative_sizes MoreScenario.single_sample_config world0
    = Ok (mx, w)
    /\ 0 <= mx.1 /\ 0 <= mx.2.
Proof.
  do 2 eexists.
  assert (Hrun : sample_status MoreScenario.node_of_negative_sizes
                   MoreScenario.single_sample_config world0 = Ok (_, _))
    by (vm_compute; reflexivity).
  split; [exact Hrun|]. exact (maxima_never_negative _ _ _ _ Hrun).
Defined.


Lemma bump_counted r m : counted (bump (reason_name r) m) = counted m + 1.
Proof.
  unfold bump. destruct r; simpl;
    repeat (rewrite lookup_insert_eq || rewrite lookup_insert_ne by done); simpl; lia.
Qed.

Lemma classify_all_counted env cfg pn entries : forall vs t cache w vs' t' cache' w',
  classify_all env cfg pn entries vs t cache w = Ok (vs', t', cache', w') ->
  counted (reasons_count t') = counted (reasons_count t) + Z.of_nat (length entries)
  /\ map fst vs' = map fst vs ++ entries.
Proof.
  induction entries as [|e entries IH]; intros vs t cache w vs' t' cache' w'; simpl.
  - intros [= <- <- <- <-]. split; [lia|by rewrite app_nil_r].
  - destruct (classify_entry env cfg pn e cache w) as [[[r c1] w1]|]; [|done]. simpl.
    intros [Hc Hv]%IH. simpl in Hc. rewrite bump_counted in Hc. split; [lia|].
    rewrite Hv, map_app. simpl. by rewrite <- app_assoc.
Qed.

(** X18.  Every queued entry is counted under one reason: the four counters
    of [queued_reasons] add up to [queued_unique], and the entries are
    classified one by one in the order they are taken in. *)
Theorem reasons_add_up env cfg rep w :
  analyze env cfg = Ok (rep, w) ->
  counted (queued_reasons rep) = queued_unique rep
  /\ Z.of_nat (length (verdicts rep)) = queued_unique rep.
Proof.
  unfold analyze.
  destruct (sample_status env cfg world0) as [[mx w1]|]; [|done]. simpl.
  destruct (collate env cfg w1) as [[st w2]|]; [|done]. simpl.
  destruct (classify_all _ _ _ _ _ _ _ _) as [[[[vs t] cache] w3]|] eqn:Hc; [|done]. simpl.
  destruct (summarize_all _ _ _ _ _ _ _ _) as [[rows c2] w4].
  intros [= <- <-]. simpl.
  apply classify_all_counted in Hc as [Hc Hv]. simpl in Hc, Hv.
  split; [done|]. by rewrite <- (length_map fst), Hv.
Qed.

(** Two queued entries, one below the floor and one without a price. *)
Lemma reasons_add_up_witness :
  exists rep w,
    analyze MoreScenario.node_two_queued MoreScenario.single_sample_config = Ok (rep, w)
    /\ Z.of_nat (length (verdicts rep)) = queued_unique rep
    /\ queued_unique rep = 2
    /\ queued_reasons rep !! "below_floor" = Some 1
    /\ queued_reasons rep !! "unknown" = Some 1.
Proof.
  do 2 eexists.
  assert (Hrun : analyze MoreScenario.node_two_queued MoreScenario.single_sample_config
                 = Ok (_, _)) by (vm_compute; reflexivity).
  split; [exact Hrun|].
  destruct (reasons_add_up _ _ _ _ Hrun) as [_ Hlen].
  split; [exact Hlen|]. split; [|split]; reflexivity.
Defined.

End ProbeFacts.
